(** * age-github: a shallow embedding of [main.go] and its specification

    The program wraps the [age] tool: it scans the argument vector,
    replaces [@handle] recipients by the first ssh key published for the
    handle, and replaces its own process by [age].

    Go strings are byte sequences: they are modelled as [string] (lists of
    8-bit [ascii]).  Go [int] indices and lengths are modelled in [Z].
    Errors are modelled by their message, which is all [main] uses of them
    ([err.Error()]).  Everything the program observes or changes outside
    itself (clock, cache files, HTTP, [$PATH], [exec]) lives in a [World]
    record that is threaded through the effectful functions. *)

From Stdlib Require Import ZArith Ascii String List Bool Lia.
From stdpp Require Import base option list strings gmap.

Local Open Scope string_scope.
Local Open Scope Z_scope.
#[local] Arguments String.append !s1 s2 : simpl nomatch.

(** ** Byte strings, as the [strings] package and slicing see them *)

Module Str.

(** [len(s)] *)
Definition len (s : string) : Z := Z.of_nat (String.length s).

(** [strings.HasPrefix(s, p)] *)
Definition HasPrefix (s p : string) : bool := String.prefix p s.

(** [s[n:]], for [0 <= n <= len(s)] *)
Fixpoint from (n : nat) (s : string) : string :=
  match n, s with
  | O, _ => s
  | S _, EmptyString => EmptyString
  | S n', String _ s' => from n' s'
  end.

(** [s[:n]], for [0 <= n <= len(s)] *)
Fixpoint upto (n : nat) (s : string) : string :=
  match n, s with
  | O, _ => EmptyString
  | S _, EmptyString => EmptyString
  | S n', String c s' => String c (upto n' s')
  end.

(** [strings.IndexRune(s, r)] for an ASCII rune [r], which Go answers
    with [IndexByte]: the index of the first byte equal to [r], or -1. *)
Fixpoint IndexByte (s : string) (b : ascii) : Z :=
  match s with
  | EmptyString => -1
  | String c s' =>
      if Ascii.eqb c b then 0
      else let j := IndexByte s' b in if j <? 0 then -1 else j + 1
  end.

(** [n] copies of the byte [c] *)
Fixpoint replicate (n : nat) (c : ascii) : string :=
  match n with
  | O => EmptyString
  | S n' => String c (replicate n' c)
  end.

Definition all (p : ascii -> bool) (s : string) : bool :=
  forallb p (list_ascii_of_string s).

End Str.

(** ** Regular expressions

    [regexp.MustCompile] and [MatchString] belong to Go's library.  The
    pattern of [userNameRe] uses only ASCII character classes, sequence and
    [+]; the text is matched by Brzozowski derivatives, byte by byte (a byte
    above 127 is in no ASCII class, as the rune it belongs to is in none). *)

Module Regexp.

Inductive regex : Type :=
| Void                                   (* matches nothing *)
| Eps                                    (* matches the empty text *)
| Class (ranges : list (ascii * ascii))  (* [lo-hi...] *)
| Cat (r1 r2 : regex)
| Alt (r1 r2 : regex)
| Star (r : regex).

(** [r+] *)
Definition Plus (r : regex) : regex := Cat r (Star r).

Definition in_range (c : ascii) (lohi : ascii * ascii) : bool :=
  (N_of_ascii (fst lohi) <=? N_of_ascii c)%N
  && (N_of_ascii c <=? N_of_ascii (snd lohi))%N.

Definition in_class (ranges : list (ascii * ascii)) (c : ascii) : bool :=
  existsb (in_range c) ranges.

Fixpoint nullable (r : regex) : bool :=
  match r with
  | Void => false
  | Eps => true
  | Class _ => false
  | Cat r1 r2 => nullable r1 && nullable r2
  | Alt r1 r2 => nullable r1 || nullable r2
  | Star _ => true
  end.

Fixpoint deriv (c : ascii) (r : regex) : regex :=
  match r with
  | Void => Void
  | Eps => Void
  | Class rs => if in_class rs c then Eps else Void
  | Cat r1 r2 =>
      if nullable r1 then Alt (Cat (deriv c r1) r2) (deriv c r2)
      else Cat (deriv c r1) r2
  | Alt r1 r2 => Alt (deriv c r1) (deriv c r2)
  | Star r1 => Cat (deriv c r1) (Star r1)
  end.

(** Whole-text match: what [MatchString] decides for a pattern anchored
    by [^] and [$] (without the [m] flag, [$] is the end of the text). *)
Fixpoint full_match (r : regex) (s : string) : bool :=
  match s with
  | EmptyString => nullable r
  | String c s' => full_match (deriv c r) s'
  end.

(** The language of a regular expression *)
Inductive Matches : regex -> string -> Prop :=
| MEps : Matches Eps EmptyString
| MClass rs c : in_class rs c = true -> Matches (Class rs) (String c EmptyString)
| MCat r1 r2 s1 s2 : Matches r1 s1 -> Matches r2 s2 -> Matches (Cat r1 r2) (s1 +:+ s2)
| MAltL r1 r2 s : Matches r1 s -> Matches (Alt r1 r2) s
| MAltR r1 r2 s : Matches r2 s -> Matches (Alt r1 r2) s
| MStar0 r : Matches (Star r) EmptyString
| MStarS r s1 s2 : Matches r s1 -> Matches (Star r) s2 -> Matches (Star r) (s1 +:+ s2).

End Regexp.

(** ** Handles *)

(** [var userNameRe = regexp.MustCompile(`^[a-zA-Z][a-zA-Z0-9_-]+$`)] *)
Definition userNameRe : Regexp.regex :=
  Regexp.Cat
    (Regexp.Class [("a", "z"); ("A", "Z")]%char)
    (Regexp.Plus
       (Regexp.Class [("a", "z"); ("A", "Z"); ("0", "9"); ("_", "_"); ("-", "-")]%char)).

(** [func validGithubHandle(s string) bool] *)
Definition validGithubHandle (s : string) : bool :=
  Regexp.full_match userNameRe s.

(** [func isRecipientFlag(s string) bool] *)
Definition isRecipientFlag (s : string) : bool :=
  String.eqb s "-r" || String.eqb s "--r"
  || String.eqb s "-recipient" || String.eqb s "--recipient".

(** The handle grammar as the specification words it: a letter, followed
    by one or more letters, digits, underscores or hyphens, and nothing
    else. *)
Module Grammar.

Definition is_letter (c : ascii) : bool :=
  let n := N_of_ascii c in
  ((97 <=? n) && (n <=? 122) || (65 <=? n) && (n <=? 90))%N.

Definition is_digit (c : ascii) : bool :=
  let n := N_of_ascii c in ((48 <=? n) && (n <=? 57))%N.

Definition is_word (c : ascii) : bool :=
  is_letter c || is_digit c || Ascii.eqb c "_" || Ascii.eqb c "-".

Definition handle (s : string) : Prop :=
  exists c rest,
    s = String c rest /\ is_letter c = true
    /\ rest <> EmptyString /\ Str.all is_word rest = true.

End Grammar.

(** ** Errors and results *)

(** A Go [error], by its message. *)
Definition error : Type := string.

Inductive result (A : Type) : Type :=
| Ok (a : A)
| Err (e : error).
Arguments Ok {A} a.
Arguments Err {A} e.

Definition is_ok {A} (r : result A) : bool :=
  match r with Ok _ => true | Err _ => false end.

Definition nl : string := String "010" EmptyString.
Definition tab : string := String "009" EmptyString.

(** [const usage] *)
Definition usage : string :=
  "age-github is the age tool [1] wrapper which allows using github" +:+ nl +:+
  "user handles as -r flag recipients. This wrapper automatically fetches first ssh" +:+ nl +:+
  "key for a given user from github and calls age with -r flag holding ssh key value." +:+ nl +:+
  nl +:+
  "Github user handles should have @ prefix, i.e. to encrypt file for" +:+ nl +:+
  "https://github.com/artyom user, you call it as" +:+ nl +:+
  nl +:+
  tab +:+ "age-github -r @artyom ..." +:+ nl +:+
  nl +:+
  "[1]: https://filippo.io/age".

(** [os.ErrNotExist] *)
Definition ErrNotExist : error := "file does not exist".

(** [bufio.ErrTooLong] *)
Definition ErrTooLong : error := "bufio.Scanner: token too long".

(** [time.Hour], in nanoseconds *)
Definition Hour : Z := 3600 * 1000000000.

(** ** The line scanner ([bufio.Scanner] with [bufio.ScanLines])

    A scanner over a reader is modelled by the sequence of outcomes of its
    successive [Scan()] calls on the reader's content.  A line ends at a
    newline; one trailing carriage return is dropped; a final line without
    newline is a line unless it is empty.  The scanner's buffer holds at most
    [MaxScanTokenSize] bytes, so a line of that many bytes or more (before
    its newline) makes [Scan] fail with [ErrTooLong]. *)

Module Scanner.

Definition MaxScanTokenSize : Z := 64 * 1024.

(** The text cut at its newlines: the first piece and the later ones.
    With [k] newlines there are [k + 1] pieces; all but the last were
    ended by a newline. *)
Fixpoint pieces (s : string) : string * list string :=
  match s with
  | EmptyString => (EmptyString, [])
  | String c s' =>
      let '(cur, more) := pieces s' in
      if Ascii.eqb c "010" then (EmptyString, cur :: more)
      else (String c cur, more)
  end.

(** [dropCR] *)
Fixpoint dropCR (s : string) : string :=
  match s with
  | EmptyString => EmptyString
  | String c EmptyString => if Ascii.eqb c "013" then EmptyString else s
  | String c s' => String c (dropCR s')
  end.

(** One [Scan()]: a token ([Text()]) together with the offset in the
    input just after it, or the failure [ErrTooLong].  The end of input
    (and [Err() == nil]) is the end of the list. *)
Inductive scan : Type :=
| Token (text : string) (stop : nat)
| TooLong.

Definition scan_of (raw : string) (stop : nat) : scan :=
  if MaxScanTokenSize <=? Str.len raw then TooLong
  else Token (dropCR raw) stop.

(** The [Scan()] outcomes for the pieces that start at offset [off]. *)
Fixpoint scans (off : nat) (ps : list string) : list scan :=
  match ps with
  | [] => []
  | [last] =>
      match last with
      | EmptyString => []
      | _ => [scan_of last (off + String.length last)]
      end
  | p :: rest =>
      let stop := (off + String.length p + 1)%nat in
      scan_of p stop :: scans stop rest
  end.

(** [bufio.NewScanner(r)] for a reader with content [r] *)
Definition NewScanner (r : string) : list scan :=
  let '(cur, more) := pieces r in scans 0 (cur :: more).




End Scanner.

(** [parseReaderToKeys]'s loop: [scanner] is what is left to scan, [out]
    the keys so far, [total] the length of the input.  The second
    component is the offset the scanner is known to have read up to when
    the function returns: all the input when [Scan()] returned false, and
    the end of the last token on the early return. *)
Fixpoint parseLoop (total : nat) (scanner : list Scanner.scan)
    (out : list string) : result (list string) * nat :=
  match scanner with
  | [] => (Ok out, total)                       (* Scan() false, Err() nil *)
  | Scanner.TooLong :: _ => (Err ErrTooLong, total)  (* Scan() false, Err() set *)
  | Scanner.Token line stop :: scanner' =>
      if Z.of_nat (length out) =? 10 then (Ok out, stop)
      else if Str.HasPrefix line "ssh-" then parseLoop total scanner' (out ++ [line])%list
      else parseLoop total scanner' out
  end.

(** [func parseReaderToKeys(r io.Reader) ([]string, error)], on a reader
    with content [r].  The scanner reads in chunks, so it may have read up
    to [ahead] bytes past the last token it returned; the second component
    is the number of bytes of [r] that were read. *)
Definition parseReaderToKeys (r : string) (ahead : nat) : result (list string) * nat :=
  let '(keys, pos) := parseLoop (String.length r) (Scanner.NewScanner r) [] in
  (keys, Nat.min (String.length r) (pos + ahead)).

(** ** The world outside the program *)

(** A regular file: [ModTime()] in nanoseconds, and content. *)
Record File : Type := mkFile { f_mtime : Z; f_data : string }.

(** An HTTP response, as far as [fetchGithubKeys] reads it. *)
Record Response : Type := mkResponse {
  StatusCode : Z;
  Status : string;
  ContentType : string;          (* resp.Header.Get("Content-Type") *)
  Body : string
}.

(** What the program did to the world, in order. *)
Inductive Event : Type :=
| EvLookPath (file : string)
| EvUserCacheDir
| EvStat (name : string)
| EvReadFile (name : string)
| EvMkdirAll (path : string)
| EvWriteFile (name : string) (data : string)
| EvHTTPGet (url : string) (userAgent : string)
| EvExec (argv0 : string) (argv : list string) (envv : list string).

Record World : Type := mkWorld {
  now : Z;                                   (* time.Now() *)
  files : gmap string File;
  stat_fault : string -> option error;       (* Stat failing on a file that exists *)
  read_fault : string -> option error;       (* ReadFile failing on a file that exists *)
  mkdir_fault : string -> option error;
  write_fault : string -> option error;
  http : string -> result Response;          (* the answer to a GET, or a transport error *)
  readahead : nat;                           (* see [parseReaderToKeys] *)
  path_lookup : string -> result string;     (* exec.LookPath *)
  user_cache_dir : result string;            (* os.UserCacheDir *)
  environ : list string;                     (* os.Environ *)
  exec_fault : string -> option error;       (* syscall.Exec failing *)
  trace : list Event
}.

Definition record (e : Event) (w : World) : World :=
  mkWorld (now w) (files w) (stat_fault w) (read_fault w) (mkdir_fault w)
    (write_fault w) (http w) (readahead w) (path_lookup w) (user_cache_dir w)
    (environ w) (exec_fault w) (trace w ++ [e]).

Definition with_files (fs : gmap string File) (w : World) : World :=
  mkWorld (now w) fs (stat_fault w) (read_fault w) (mkdir_fault w)
    (write_fault w) (http w) (readahead w) (path_lookup w) (user_cache_dir w)
    (environ w) (exec_fault w) (trace w).

(** The clock [d] nanoseconds later. *)
Definition later (d : Z) (w : World) : World :=
  mkWorld (now w + d) (files w) (stat_fault w) (read_fault w) (mkdir_fault w)
    (write_fault w) (http w) (readahead w) (path_lookup w) (user_cache_dir w)
    (environ w) (exec_fault w) (trace w).

(** [os.Stat] *)
Definition os_Stat (name : string) (w : World) : result File * World :=
  let w1 := record (EvStat name) w in
  match files w !! name with
  | None => (Err ("stat " +:+ name +:+ ": no such file or directory"), w1)
  | Some f =>
      match stat_fault w name with
      | Some e => (Err e, w1)
      | None => (Ok f, w1)
      end
  end.

(** [ioutil.ReadFile] *)
Definition ioutil_ReadFile (name : string) (w : World) : result string * World :=
  let w1 := record (EvReadFile name) w in
  match files w !! name with
  | None => (Err ("open " +:+ name +:+ ": no such file or directory"), w1)
  | Some f =>
      match read_fault w name with
      | Some e => (Err e, w1)
      | None => (Ok (f_data f), w1)
      end
  end.

(** [os.MkdirAll] *)
Definition os_MkdirAll (path : string) (w : World) : option error * World :=
  (mkdir_fault w path, record (EvMkdirAll path) w).

(** [ioutil.WriteFile]: the file gets the data and the current time. *)
Definition ioutil_WriteFile (name data : string) (w : World) : option error * World :=
  let w1 := record (EvWriteFile name data) w in
  match write_fault w name with
  | Some e => (Some e, w1)
  | None => (None, with_files (<[name := mkFile (now w) data]> (files w)) w1)
  end.

(** [http.DefaultClient.Do] of the GET request *)
Definition http_Do (url userAgent : string) (w : World) : result Response * World :=
  (http w url, record (EvHTTPGet url userAgent) w).

(** [exec.LookPath] *)
Definition exec_LookPath (file : string) (w : World) : result string * World :=
  (path_lookup w file, record (EvLookPath file) w).

(** [os.UserCacheDir] *)
Definition os_UserCacheDir (w : World) : result string * World :=
  (user_cache_dir w, record EvUserCacheDir w).

(** How a call of [run] ends: the process became another program, or
    [run] returned an error. *)
Inductive outcome : Type :=
| Replaced (argv0 : string) (argv : list string) (envv : list string)
| Returned (err : error).

(** [syscall.Exec] *)
Definition syscall_Exec (argv0 : string) (argv envv : list string) (w : World)
    : outcome * World :=
  let w1 := record (EvExec argv0 argv envv) w in
  match exec_fault w argv0 with
  | Some e => (Returned e, w1)
  | None => (Replaced argv0 argv envv, w1)
  end.

(** How the process ends. *)
Inductive process : Type :=
| Became (argv0 : string) (argv : list string) (envv : list string)
| Exited (code : Z) (stderr : string).

(** ** Vocabulary of the specification *)

Module Words.

(** The recognised spellings of the recipient flag. *)
Definition recipient_flags : list string := ["-r"; "--r"; "-recipient"; "--recipient"].

(** The token [v] at position [i] of [args] is a placeholder after a flag:
    it starts with [@], its position is greater than 0, and the token just
    before it is a recipient flag. *)
Definition placeholder (args : list string) (i : nat) (v : string) : Prop :=
  Str.HasPrefix v "@" = true /\ (0 < i)%nat
  /\ exists f, args !! (i - 1)%nat = Some f /\ In f recipient_flags.

(** The token [v] is [F=V] for a recipient flag [F]. *)
Definition attached (v F V : string) : Prop :=
  v = F +:+ "=" +:+ V /\ In F recipient_flags.

(** The token [v] is [F=@handle] for a recipient flag [F]. *)
Definition attached_placeholder (v : string) : Prop :=
  exists F V, attached v F V /\ Str.HasPrefix V "@" = true.

(** The cache file is absent. *)
Definition missing (w : World) (name : string) : Prop := files w !! name = None.

(** The cache file is there and cannot be read. *)
Definition unreadable (w : World) (name : string) : Prop :=
  exists f, files w !! name = Some f
            /\ (stat_fault w name <> None \/ read_fault w name <> None).

(** The cache file was modified more than one hour before now. *)
Definition stale (w : World) (name : string) : Prop :=
  exists f, files w !! name = Some f /\ f_mtime f < now w - Hour.

Definition is_exec (e : Event) : bool :=
  match e with EvExec _ _ _ => true | _ => false end.

(** From [w] to [w'] the program did [evs], and nothing else, to the
    world. *)
Definition did (w w' : World) (evs : list Event) : Prop :=
  trace w' = (trace w ++ evs)%list.

(** From [w] to [w'] the program did not call [syscall.Exec]. *)
Definition no_exec (w w' : World) : Prop :=
  exists evs, did w w' evs /\ Forall (fun e => is_exec e = false) evs.

End Words.

(** ** The program *)

Section Program.

(** Library functions the program calls with arbitrary strings. *)
Variable sha1_hex : string -> string.     (* fmt.Sprintf("%x", sha1.Sum([]byte(key))) *)
Variable Join : string -> string -> string.   (* filepath.Join *)
Variable Quote : string -> string.        (* the verb %q *)

(** [func (c cacheDir) get(key string) ([]byte, error)] *)
Definition cacheDir_get (c key : string) (w : World) : result string * World :=
  if String.eqb c EmptyString then (Err ErrNotExist, w)
  else
    let filename := Join c (sha1_hex key) in
    match os_Stat filename w with
    | (Err e, w1) => (Err e, w1)
    | (Ok st, w1) =>
        if f_mtime st + Hour <? now w1 then (Err ErrNotExist, w1)  (* stale entry *)
        else ioutil_ReadFile filename w1
    end.

(** [func (c cacheDir) put(key string, data []byte) error] *)
Definition cacheDir_put (c key data : string) (w : World) : option error * World :=
  if String.eqb c EmptyString then (None, w)
  else
    let filename := sha1_hex key in
    match os_MkdirAll c w with
    | (Some e, w1) => (Some e, w1)
    | (None, w1) => ioutil_WriteFile (Join c filename) data w1
    end.

(** [func fetchGithubKeys(ctx, username string, cache cacheDir) ([]string, error)].
    The request for a valid user name is well formed, so
    [http.NewRequestWithContext] succeeds; the deadline of the context is
    one of the transport errors of [http]. *)
Definition fetchGithubKeys (username cache : string) (w : World)
    : result (list string) * World :=
  if negb (validGithubHandle username) then
    (Err "not a valid github user name", w)
  else
    match cacheDir_get cache username w with
    | (Ok data, w1) => (fst (parseReaderToKeys data 0), w1)
    | (Err _, w1) =>
        match http_Do ("https://github.com/" +:+ username +:+ ".keys")
                      "github.com/artyom/age-github" w1 with
        | (Err e, w2) => (Err e, w2)
        | (Ok resp, w2) =>
            if negb (StatusCode resp =? 200) then
              (Err ("unexpected response code " +:+ Quote (Status resp)), w2)
            else if negb (Str.HasPrefix (ContentType resp) "text/plain") then
              (Err ("unexpected content type " +:+ Quote (ContentType resp)), w2)
            else
              (* io.TeeReader(io.LimitReader(resp.Body, 1<<18), buf) *)
              let limited := Str.upto (Z.to_nat (Z.shiftl 1 18)) (Body resp) in
              match parseReaderToKeys limited (readahead w2) with
              | (Err e, _) => (Err e, w2)
              | (Ok keys, n) =>
                  let buf := Str.upto n limited in
                  let '(_, w3) := cacheDir_put cache username buf w2 in
                  (Ok keys, w3)
              end
        end
    end.

(** The body of the loop of [run] for the argument [v] at index [i]:
    the new [ageArgs], or the error [run] returns. *)
Definition rewriteArg (args : list string) (cache : string) (i : nat) (v : string)
    (ageArgs : list string) (w : World) : result (list string) * World :=
  if Str.HasPrefix v "@" && (0 <? Z.of_nat i)
     && isRecipientFlag (default EmptyString (args !! (i - 1)%nat)) then
    let userName := Str.from 1 v in
    match fetchGithubKeys userName cache w with
    | (Err err, w1) =>
        (Err ("fetching keys for github user " +:+ Quote userName +:+ ": " +:+ err), w1)
    | (Ok [], w1) =>
        (Err ("no keys found for github user " +:+ Quote userName), w1)
    | (Ok (key0 :: _), w1) => (Ok (ageArgs ++ [key0])%list, w1)
    end
  else
    let j := Str.IndexByte v "=" in
    if (0 <? j) && isRecipientFlag (Str.upto (Z.to_nat j) v) then
      let flagArg := Str.from (Z.to_nat (j + 1)) v in
      if negb (Str.HasPrefix flagArg "@") then (Ok (ageArgs ++ [v])%list, w)
      else
        let userName := Str.from 1 flagArg in
        match fetchGithubKeys userName cache w with
        | (Err err, w1) =>
            (Err ("fetching keys for github user " +:+ Quote userName +:+ ": " +:+ err), w1)
        | (Ok [], w1) =>
            (Err ("no keys found for github user " +:+ Quote userName), w1)
        | (Ok (key0 :: _), w1) => (Ok (ageArgs ++ ["-r"; key0])%list, w1)
        end
    else (Ok (ageArgs ++ [v])%list, w).

(** [for i, v := range args { ... }], from index [i] on: [rest] is
    [args[i:]]. *)
Fixpoint rewriteFrom (args : list string) (cache : string) (i : nat)
    (rest : list string) (ageArgs : list string) (w : World)
    : result (list string) * World :=
  match rest with
  | [] => (Ok ageArgs, w)
  | v :: rest' =>
      match rewriteArg args cache i v ageArgs w with
      | (Err e, w1) => (Err e, w1)
      | (Ok ageArgs', w1) => rewriteFrom args cache (S i) rest' ageArgs' w1
      end
  end.

(** The cache directory [run] settles on. *)
Definition cacheOf (dir : result string) : string :=
  match dir with
  | Ok d => if negb (String.eqb d EmptyString) then Join d "age-github" else EmptyString
  | Err _ => EmptyString
  end.

(** [func run(args []string) error] *)
Definition run (args : list string) (w : World) : outcome * World :=
  if Z.of_nat (length args) =? 0 then (Returned usage, w)
  else
    match exec_LookPath "age" w with
    | (Err err, w1) => (Returned err, w1)
    | (Ok ageBin, w1) =>
        let '(dir, w2) := os_UserCacheDir w1 in
        let cache := cacheOf dir in
        match rewriteFrom args cache 0 args [ageBin] w2 with
        | (Err err, w3) => (Returned err, w3)
        | (Ok ageArgs, w3) => syscall_Exec ageBin ageArgs (environ w3) w3
        end
    end.

(** [func main()], started with [os.Args = osArgs] *)
Definition main (osArgs : list string) (w : World) : process * World :=
  match run (drop 1 osArgs) w with
  | (Returned err, w1) => (Exited 1 (err +:+ nl), w1)
  | (Replaced argv0 argv envv, w1) => (Became argv0 argv envv, w1)
  end.

(** What both substitutions of [run] do with a handle: resolve it, fail on
    a resolution error or on an empty key list, else append [tokens key0]
    for the first key. *)
Definition substitute (cache userName : string) (tokens : string -> list string)
    (ageArgs : list string) (w : World) : result (list string) * World :=
  match fetchGithubKeys userName cache w with
  | (Err err, w1) =>
      (Err ("fetching keys for github user " +:+ Quote userName +:+ ": " +:+ err), w1)
  | (Ok [], w1) => (Err ("no keys found for github user " +:+ Quote userName), w1)
  | (Ok (key0 :: _), w1) => (Ok (ageArgs ++ tokens key0)%list, w1)
  end.

(** The rewriting of the arguments [rest], which stand at positions [i],
    [i+1], ... of [args], as the specification words it, from the world
    [w] to the world [w']: a placeholder after a flag becomes the first
    key of its resolution in the world reached so far; a token [F=@handle]
    becomes [-r] and that first key; any other token is kept. *)
Inductive Rewrites (args : list string) (cache : string)
  : nat -> list string -> World -> list string -> World -> Prop :=
| Rewrites_done i w : Rewrites args cache i [] w [] w
| Rewrites_in_place i v rest w key0 keys w1 toks w' :
    Words.placeholder args i v ->
    fetchGithubKeys (Str.from 1 v) cache w = (Ok (key0 :: keys), w1) ->
    Rewrites args cache (S i) rest w1 toks w' ->
    Rewrites args cache i (v :: rest) w (key0 :: toks) w'
| Rewrites_expand i v F V rest w key0 keys w1 toks w' :
    ~ Words.placeholder args i v ->
    Words.attached v F V -> Str.HasPrefix V "@" = true ->
    fetchGithubKeys (Str.from 1 V) cache w = (Ok (key0 :: keys), w1) ->
    Rewrites args cache (S i) rest w1 toks w' ->
    Rewrites args cache i (v :: rest) w ("-r" :: key0 :: toks) w'
| Rewrites_keep i v rest w toks w' :
    ~ Words.placeholder args i v -> ~ Words.attached_placeholder v ->
    Rewrites args cache (S i) rest w toks w' ->
    Rewrites args cache i (v :: rest) w (v :: toks) w'.

End Program.

(** ** Sample libraries and worlds, for concrete evaluation

    [filepath.Join] of a clean directory and a file name, and [%q] of a
    text of plain printable characters, are as below; the digest is a
    stand-in. *)

Module Sample.

Definition dquote : string := String "034" EmptyString.

Definition sha1_hex (key : string) : string := "5ba93c9d-" +:+ key.
Definition Join (dir name : string) : string := dir +:+ "/" +:+ name.
Definition Quote (s : string) : string := dquote +:+ s +:+ dquote.

Definition no_fault (name : string) : option error := None.

Definition alice_keys : string :=
  "ssh-ed25519 AAA" +:+ nl +:+ "ssh-rsa BBB" +:+ nl.

Definition github (url : string) : result Response :=
  if String.eqb url "https://github.com/alice.keys" then
    Ok (mkResponse 200 "200 OK" "text/plain; charset=utf-8" alice_keys)
  else if String.eqb url "https://github.com/nokeys.keys" then
    Ok (mkResponse 200 "200 OK" "text/plain; charset=utf-8" EmptyString)
  else Ok (mkResponse 404 "404 Not Found" "text/plain; charset=utf-8" "Not Found").

(** A machine with [age] installed, an empty cache and the network up. *)
Definition world : World :=
  mkWorld 1700000000000000000 ∅ no_fault no_fault no_fault no_fault github 0
    (fun file => Ok ("/usr/bin/" +:+ file)) (Ok "/home/u/.cache")
    ["HOME=/home/u"] no_fault [].

Definition cache : string := "/home/u/.cache/age-github".

End Sample.

(** ** Vocabulary of the specification of the key parser *)

Module KeyLines.

(** The scanner hands out the token [l]. *)
Definition hands_out (sc : Scanner.scan) (l : string) : Prop :=
  exists stop, sc = Scanner.Token l stop.

(** A line below the scanner's token limit. *)
Definition short (raw : string) : Prop := Str.len raw < Scanner.MaxScanTokenSize.

(** A candidate key: a line that begins with [ssh-]. *)
Definition is_key (line : string) : bool := Str.HasPrefix line "ssh-".




(** A key line of 65536 bytes. *)
Definition long_key : string := "ssh-" +:+ Str.replicate (Z.to_nat 65532) "a".

End KeyLines.

(** ** Further vocabulary: texts, traces and files *)

Module More.

(** The pieces of a text as one list (never empty). *)
Definition plist (s : string) : list string :=
  let '(cur, more) := Scanner.pieces s in cur :: more.

(** The text made of the given lines, each ended by a newline. *)
Fixpoint unlines (ls : list string) : string :=
  match ls with
  | [] => EmptyString
  | l :: ls' => l +:+ nl +:+ unlines ls'
  end.

(** The text has no newline byte. *)
Definition no_newline (s : string) : Prop :=
  Str.all (fun c => negb (Ascii.eqb c "010")) s = true.

(** A key as [parseReaderToKeys] hands it out. *)
Definition clean_key (k : string) : Prop :=
  Str.HasPrefix k "ssh-" = true /\ no_newline k.

(** A token without newline, or a failure. *)
Definition clean_scan (sc : Scanner.scan) : Prop :=
  match sc with Scanner.Token t _ => no_newline t | Scanner.TooLong => True end.

(** The [Scan()] outcomes for pieces that were all ended by a newline. *)
Fixpoint ended_scans (off : nat) (ps : list string) : list Scanner.scan :=
  match ps with
  | [] => []
  | p :: rest =>
      let stop := (off + String.length p + 1)%nat in
      Scanner.scan_of p stop :: ended_scans stop rest
  end.

(** The bytes of pieces that were all ended by a newline. *)
Fixpoint ended_size (ps : list string) : nat :=
  match ps with
  | [] => 0%nat
  | p :: rest => (String.length p + 1 + ended_size rest)%nat
  end.

(** The loop of [parseReaderToKeys] over the first outcomes of a scanner:
    what it returns if it returns among them, else the keys it holds
    when they are used up. *)
Fixpoint loop_over (scanner : list Scanner.scan) (out : list string)
    : list string + result (list string) * nat :=
  match scanner with
  | [] => inl out
  | Scanner.TooLong :: _ => inr (Err ErrTooLong, 0%nat)
  | Scanner.Token line stop :: scanner' =>
      if Z.of_nat (length out) =? 10 then inr (Ok out, stop)
      else if Str.HasPrefix line "ssh-" then loop_over scanner' (out ++ [line])%list
      else loop_over scanner' out
  end.

(** The token is [F=@handle] for a recipient flag [F], as [run] tests it. *)
Definition is_attached_placeholder (v : string) : bool :=
  let j := Str.IndexByte v "=" in
  (0 <? j) && isRecipientFlag (Str.upto (Z.to_nat j) v)
  && Str.HasPrefix (Str.from (Z.to_nat (j + 1)) v) "@".

(** What the program cannot change: all of the world but its files and
    the trace. *)
Definition env_of (w : World) :=
  (now w, stat_fault w, read_fault w, mkdir_fault w, write_fault w, http w,
   readahead w, path_lookup w, user_cache_dir w, environ w, exec_fault w).

(** From [w] to [w'] the program did only things that satisfy [P]. *)
Definition only (P : Event -> Prop) (w w' : World) : Prop :=
  exists evs, Words.did w w' evs /\ Forall P evs.

(** [io.LimitReader(resp.Body, 1<<18)]: what the parser can see of a body. *)
Definition limited (body : string) : string :=
  Str.upto (Z.to_nat (Z.shiftl 1 18)) body.

(** The URL of the keys of a handle. *)
Definition keys_url (h : string) : string := "https://github.com/" +:+ h +:+ ".keys".

(** What the program may do to the world: look up [age], ask for the
    cache directory, stat, read and write the cache file of a valid
    handle, create the cache directory, request the keys of a valid
    handle, and exec. *)
Definition permitted (sha1_hex : string -> string) (Join : string -> string -> string)
    (cache : string) (e : Event) : Prop :=
  match e with
  | EvLookPath file => file = "age"
  | EvUserCacheDir => True
  | EvStat name | EvReadFile name | EvWriteFile name _ =>
      exists h, validGithubHandle h = true /\ name = Join cache (sha1_hex h)
  | EvMkdirAll path => path = cache
  | EvHTTPGet url userAgent =>
      (exists h, validGithubHandle h = true /\ url = keys_url h)
      /\ userAgent = "github.com/artyom/age-github"
  | EvExec _ _ _ => True
  end.

End More.

(** * Properties *)

(** ** Byte strings *)

Module StrFacts.

Lemma append_eq_nil (a b : string) :
  a +:+ b = EmptyString -> a = EmptyString /\ b = EmptyString.
Proof. destruct a; simpl; [auto | discriminate]. Qed.

Lemma all_append (p : ascii -> bool) (a b : string) :
  Str.all p (a +:+ b) = Str.all p a && Str.all p b.
Proof.
  unfold Str.all. induction a as [|x a IH]; simpl; [reflexivity|].
  rewrite IH. now rewrite andb_assoc.
Qed.

Lemma all_In (p : ascii -> bool) (s : string) (c : ascii) :
  Str.all p s = true -> In c (list_ascii_of_string s) -> p c = true.
Proof.
  unfold Str.all. intros H Hin. rewrite forallb_forall in H. now apply H.
Qed.

Lemma upto_append (a b : string) : Str.upto (String.length a) (a +:+ b) = a.
Proof. induction a as [|x a IH]; simpl; [now destruct b | now rewrite IH]. Qed.

Lemma IndexByte_range (s : string) (b : ascii) :
  Str.IndexByte s b = -1 \/ 0 <= Str.IndexByte s b < Str.len s.
Proof.
  unfold Str.len. induction s as [|c s IH]; simpl; [now left|].
  destruct (Ascii.eqb c b); [right; lia|].
  destruct (Z.ltb_spec (Str.IndexByte s b) 0); [now left | right; lia].
Qed.

Lemma upto_len (a b : string) : Str.upto (Z.to_nat (Str.len a)) (a +:+ b) = a.
Proof. unfold Str.len. rewrite Nat2Z.id. apply upto_append. Qed.

Lemma from_after (a b : string) (c : ascii) :
  Str.from (Z.to_nat (Str.len a + 1)) (a +:+ String c b) = b.
Proof.
  unfold Str.len. replace (Z.to_nat (Z.of_nat (String.length a) + 1))
    with (S (String.length a)) by lia.
  induction a as [|x a IH]; simpl; [now destruct b | exact IH].
Qed.

(** The first [=] of [f=rest], when [f] has none, is at [len(f)]. *)
Lemma IndexByte_append (f rest : string) (b : ascii) :
  Str.IndexByte f b = -1 ->
  Str.IndexByte (f +:+ String b rest) b = Str.len f.
Proof.
  unfold Str.len. induction f as [|c f IH]; simpl; intros H.
  - now rewrite Ascii.eqb_refl.
  - destruct (Ascii.eqb c b); [discriminate|].
    destruct (IndexByte_range f b) as [Hf|Hf].
    + rewrite IH by exact Hf.
      destruct (Z.ltb_spec (Z.of_nat (String.length f)) 0); lia.
    + exfalso. destruct (Z.ltb_spec (Str.IndexByte f b) 0); lia.
Qed.

(** At the index [IndexByte] answers, the text splits around the byte. *)
Lemma IndexByte_split (s : string) (b : ascii) :
  0 <= Str.IndexByte s b ->
  s = Str.upto (Z.to_nat (Str.IndexByte s b)) s
      +:+ String b (Str.from (Z.to_nat (Str.IndexByte s b + 1)) s).
Proof.
  induction s as [|c s IH]; simpl; [lia|].
  destruct (Ascii.eqb_spec c b) as [->|Hne]; [reflexivity|].
  destruct (Z.ltb_spec (Str.IndexByte s b) 0) as [Hlt|Hge]; [lia|].
  intros _.
  replace (Z.to_nat (Str.IndexByte s b + 1)) with (S (Z.to_nat (Str.IndexByte s b))) by lia.
  replace (Z.to_nat (Str.IndexByte s b + 1 + 1))
    with (S (Z.to_nat (Str.IndexByte s b + 1))) by lia.
  simpl. f_equal. now apply IH.
Qed.

End StrFacts.

(** ** The matcher decides the language of the pattern *)

Module RegexpFacts.
Import Regexp.

Lemma nullable_Matches (r : regex) : nullable r = true -> Matches r EmptyString.
Proof.
  induction r as [| |rs|r1 IH1 r2 IH2|r1 IH1 r2 IH2|r IH]; simpl; intros H;
    try discriminate.
  - constructor.
  - apply andb_prop in H as [H1 H2].
    change EmptyString with (EmptyString +:+ EmptyString). constructor; auto.
  - apply orb_prop in H as [H|H]; [apply MAltL | apply MAltR]; auto.
  - constructor.
Qed.

Lemma Matches_nullable (r : regex) (s : string) :
  Matches r s -> s = EmptyString -> nullable r = true.
Proof.
  induction 1 as [|rs c Hc|r1 r2 s1 s2 _ IH1 _ IH2|r1 r2 s _ IH|r1 r2 s _ IH
                  |r|r s1 s2 _ _ _ _]; simpl; intros E; try reflexivity.
  - discriminate.
  - apply StrFacts.append_eq_nil in E as [-> ->]. now rewrite IH1, IH2.
  - now rewrite IH.
  - rewrite IH by assumption. apply orb_true_r.
Qed.

(** A text matches the derivative by [c] exactly when [c] followed by the
    text matches the expression. *)
Lemma deriv_sound (c : ascii) (r : regex) :
  forall s, Matches (deriv c r) s -> Matches r (String c s).
Proof.
  induction r as [| |rs|r1 IH1 r2 IH2|r1 IH1 r2 IH2|r IH]; simpl; intros s H.
  - inversion H.
  - inversion H.
  - destruct (in_class rs c) eqn:E; inversion H; subst. now constructor.
  - assert (Hcat : forall t, Matches (Cat (deriv c r1) r2) t ->
                             Matches (Cat r1 r2) (String c t)).
    { intros t Ht. inversion Ht as [| |? ? s1 s2 Ha Hb| | | |]; subst.
      change (String c (s1 +:+ s2)) with (String c s1 +:+ s2).
      constructor; auto. }
    destruct (nullable r1) eqn:E; [|auto].
    inversion H; subst; [auto|].
    change (String c s) with (EmptyString +:+ String c s).
    constructor; [now apply nullable_Matches | auto].
  - inversion H; subst; [apply MAltL | apply MAltR]; auto.
  - inversion H as [| |? ? s1 s2 Ha Hb| | | |]; subst.
    change (String c (s1 +:+ s2)) with (String c s1 +:+ s2).
    apply MStarS; auto.
Qed.

Lemma deriv_complete (r : regex) (t : string) :
  Matches r t -> forall c s, t = String c s -> Matches (deriv c r) s.
Proof.
  induction 1 as [|rs d Hd|r1 r2 s1 s2 H1 IH1 H2 IH2|r1 r2 t H IH|r1 r2 t H IH
                  |r|r s1 s2 H1 IH1 H2 IH2]; intros c s E; simpl.
  - discriminate.
  - injection E as -> <-. rewrite Hd. constructor.
  - destruct s1 as [|x s1]; simpl in E.
    + rewrite (Matches_nullable _ _ H1 eq_refl). apply MAltR. eauto.
    + injection E as -> <-.
      assert (Matches (Cat (deriv c r1) r2) (s1 +:+ s2)) by (constructor; eauto).
      destruct (nullable r1); [now apply MAltL | assumption].
  - apply MAltL. eauto.
  - apply MAltR. eauto.
  - discriminate.
  - destruct s1 as [|x s1]; simpl in E.
    + apply (IH2 c s E).
    + injection E as -> <-. constructor; eauto.
Qed.

Lemma full_match_Matches (s : string) :
  forall r, full_match r s = true <-> Matches r s.
Proof.
  induction s as [|c s IH]; intros r; simpl.
  - split; [apply nullable_Matches | intros H; now apply (Matches_nullable r EmptyString)].
  - rewrite IH. split; [apply deriv_sound | intros H; now apply (deriv_complete r (String c s))].
Qed.

Lemma Matches_Class_inv (rs : list (ascii * ascii)) (s : string) :
  Matches (Class rs) s -> exists c, s = String c EmptyString /\ in_class rs c = true.
Proof. inversion 1; subst; eauto. Qed.

Lemma Matches_Star_Class (rs : list (ascii * ascii)) (r : regex) (s : string) :
  Matches r s -> r = Star (Class rs) -> Str.all (in_class rs) s = true.
Proof.
  induction 1 as [| | | | |r0|r0 s1 s2 H1 _ H2 IH2]; intros E; try discriminate.
  - reflexivity.
  - injection E as ->. rewrite StrFacts.all_append, IH2 by reflexivity.
    apply Matches_Class_inv in H1 as (c & -> & Hc).
    unfold Str.all. simpl. now rewrite Hc.
Qed.

Lemma Star_Class_Matches (rs : list (ascii * ascii)) (s : string) :
  Str.all (in_class rs) s = true -> Matches (Star (Class rs)) s.
Proof.
  unfold Str.all. induction s as [|c s IH]; simpl; intros H.
  - constructor.
  - apply andb_prop in H as [Hc Hs].
    change (String c s) with (String c EmptyString +:+ s).
    apply MStarS; [now constructor | auto].
Qed.

(** The two classes of [userNameRe], byte by byte. *)
Lemma letter_class (c : ascii) :
  in_class [("a", "z"); ("A", "Z")]%char c = Grammar.is_letter c.
Proof. destruct c as [[] [] [] [] [] [] [] []]; reflexivity. Qed.

Lemma word_class (c : ascii) :
  in_class [("a", "z"); ("A", "Z"); ("0", "9"); ("_", "_"); ("-", "-")]%char c
  = Grammar.is_word c.
Proof. destruct c as [[] [] [] [] [] [] [] []]; reflexivity. Qed.

Lemma all_ext (p q : ascii -> bool) (s : string) :
  (forall c, p c = q c) -> Str.all p s = Str.all q s.
Proof.
  intros E. unfold Str.all. induction (list_ascii_of_string s) as [|c l IH]; simpl;
    [reflexivity | now rewrite E, IH].
Qed.

Lemma Matches_userNameRe (s : string) : Matches userNameRe s <-> Grammar.handle s.
Proof.
  unfold userNameRe, Plus, Grammar.handle. split.
  - intros H. inversion H as [| |? ? s1 s2 H1 H2| | | |]; subst.
    apply Matches_Class_inv in H1 as (c & -> & Hc).
    inversion H2 as [| |? ? t1 t2 H3 H4| | | |]; subst.
    apply Matches_Class_inv in H3 as (d & -> & Hd).
    pose proof (Matches_Star_Class _ _ _ H4 eq_refl) as Hall.
    exists c, (String d t2). simpl. repeat split.
    + now rewrite <- letter_class.
    + discriminate.
    + rewrite (all_ext _ _ t2 word_class) in Hall.
      unfold Str.all in *. simpl. now rewrite <- word_class, Hd.
  - intros (c & rest & -> & Hc & Hne & Hall).
    destruct rest as [|d rest]; [now destruct Hne|].
    unfold Str.all in Hall. simpl in Hall. apply andb_prop in Hall as [Hd Hall].
    change (String c (String d rest))
      with (String c EmptyString +:+ (String d EmptyString +:+ rest)).
    constructor; [constructor; now rewrite letter_class|].
    constructor; [constructor; now rewrite word_class|].
    apply Star_Class_Matches. rewrite (all_ext _ _ rest word_class). exact Hall.
Qed.

End RegexpFacts.

(** ** Handle validation *)

(** C4. [validGithubHandle] answers true exactly for the texts of the
    grammar [^[A-Za-z][A-Za-z0-9_-]+$]: a letter followed by one or more
    letters, digits, underscores or hyphens.  In particular the empty text,
    a text whose first byte is not a letter, and a text with a byte outside
    [[A-Za-z0-9_-]] are rejected. *)
Theorem validGithubHandle_grammar (s : string) :
  (validGithubHandle s = true <-> Grammar.handle s)
  /\ (s = EmptyString -> validGithubHandle s = false)
  /\ (forall c rest, s = String c rest -> Grammar.is_letter c = false ->
        validGithubHandle s = false)
  /\ (forall c, In c (list_ascii_of_string s) -> Grammar.is_word c = false ->
        validGithubHandle s = false).
Proof.
  assert (Hiff : validGithubHandle s = true <-> Grammar.handle s).
  { unfold validGithubHandle. rewrite RegexpFacts.full_match_Matches.
    apply RegexpFacts.Matches_userNameRe. }
  split; [exact Hiff|].
  assert (Hno : ~ Grammar.handle s -> validGithubHandle s = false).
  { intros Hn. destruct (validGithubHandle s) eqn:E; [|reflexivity].
    destruct Hn. now apply Hiff. }
  repeat split.
  - intros ->. apply Hno. intros (c & rest & E & _). discriminate.
  - intros c rest -> Hc. apply Hno. intros (c' & rest' & E & Hc' & _).
    injection E as <- <-. congruence.
  - intros c Hin Hc. apply Hno. intros (c' & rest & -> & Hc' & _ & Hall).
    simpl in Hin. destruct Hin as [<-|Hin].
    + unfold Grammar.is_word in Hc. rewrite Hc' in Hc. discriminate.
    + rewrite (StrFacts.all_In _ _ _ Hall Hin) in Hc. discriminate.
Qed.

Lemma validGithubHandle_grammar_witness :
  validGithubHandle "artyom" = true /\ validGithubHandle "1abc" = false
  /\ validGithubHandle "a b" = false.
Proof.
  destruct (validGithubHandle_grammar "artyom") as (Hyes & _).
  destruct (validGithubHandle_grammar "1abc") as (_ & _ & Hfirst & _).
  destruct (validGithubHandle_grammar "a b") as (_ & _ & _ & Hin).
  split; [|split].
  - apply Hyes. exists "a"%char, "rtyom".
    split; [reflexivity|]. split; [reflexivity|]. split; [discriminate | reflexivity].
  - apply (Hfirst "1"%char "abc"); reflexivity.
  - apply (Hin " "%char); [simpl; auto | reflexivity].
Defined.

(** ** Key parsing *)

Module ParseFacts.
Import Scanner KeyLines.

Lemma scan_of_short (raw : string) (stop : nat) :
  short raw -> scan_of raw stop = Token (dropCR raw) stop.
Proof.
  unfold short, scan_of. intros H.
  destruct (Z.leb_spec MaxScanTokenSize (Str.len raw)); [lia | reflexivity].
Qed.





End ParseFacts.




(** The parsing scenario of the specification: of fifteen lines, the
    eight odd ones are keys and all eight are returned; of twelve key
    lines, the first ten are. *)
Example parseReaderToKeys_eight_of_fifteen :
  fst (parseReaderToKeys
         ("ssh-01" +:+ nl +:+ "x02" +:+ nl +:+ "ssh-03" +:+ nl +:+ "x04" +:+ nl +:+
          "ssh-05" +:+ nl +:+ "x06" +:+ nl +:+ "ssh-07" +:+ nl +:+ "x08" +:+ nl +:+
          "ssh-09" +:+ nl +:+ "x10" +:+ nl +:+ "ssh-11" +:+ nl +:+ "x12" +:+ nl +:+
          "ssh-13" +:+ nl +:+ "x14" +:+ nl +:+ "ssh-15" +:+ nl) 0)
  = Ok ["ssh-01"; "ssh-03"; "ssh-05"; "ssh-07"; "ssh-09"; "ssh-11"; "ssh-13"; "ssh-15"].
Proof. vm_compute. reflexivity. Qed.

Example parseReaderToKeys_ten_of_twelve :
  fst (parseReaderToKeys
         ("ssh-01" +:+ nl +:+ "ssh-02" +:+ nl +:+ "ssh-03" +:+ nl +:+ "ssh-04" +:+ nl +:+
          "ssh-05" +:+ nl +:+ "ssh-06" +:+ nl +:+ "ssh-07" +:+ nl +:+ "ssh-08" +:+ nl +:+
          "ssh-09" +:+ nl +:+ "ssh-10" +:+ nl +:+ "ssh-11" +:+ nl +:+ "ssh-12" +:+ nl) 0)
  = Ok ["ssh-01"; "ssh-02"; "ssh-03"; "ssh-04"; "ssh-05"; "ssh-06"; "ssh-07"; "ssh-08";
        "ssh-09"; "ssh-10"].
Proof. vm_compute. reflexivity. Qed.

(** ** The disk cache *)

Section CacheFacts.

Variable sha1_hex : string -> string.
Variable Join : string -> string -> string.

Lemma eqb_empty (c : string) : String.eqb c EmptyString = false <-> c <> EmptyString.
Proof. apply String.eqb_neq. Qed.

(** [get] on a world whose cache root is set, step by step. *)
Lemma get_unfold (c key : string) (w : World) :
  c <> EmptyString ->
  fst (cacheDir_get sha1_hex Join c key w)
  = match files w !! Join c (sha1_hex key) with
    | None => Err ("stat " +:+ Join c (sha1_hex key) +:+ ": no such file or directory")
    | Some f =>
        match stat_fault w (Join c (sha1_hex key)) with
        | Some e => Err e
        | None =>
            if f_mtime f + Hour <? now w then Err ErrNotExist
            else match read_fault w (Join c (sha1_hex key)) with
                 | Some e => Err e
                 | None => Ok (f_data f)
                 end
        end
    end.
Proof.
  intros Hc. apply eqb_empty in Hc. unfold cacheDir_get, os_Stat. rewrite Hc.
  destruct (files w !! _) as [f|] eqn:Ef; [|reflexivity].
  destruct (stat_fault w _); [reflexivity|]. simpl.
  destruct (_ <? _); [reflexivity|].
  unfold ioutil_ReadFile. simpl. rewrite Ef.
  destruct (read_fault w _); reflexivity.
Qed.

(** C7. [get] fails exactly when the cache root is unset, or the cache
    file of the handle is absent, or it cannot be read, or its
    modification time is older than now minus one hour.  A stale entry is
    reported as not found whatever its content, and an entry of age at most
    one hour that can be read is returned. *)
Theorem cacheDir_get_fails_exactly (c key : string) (w : World) :
  let name := Join c (sha1_hex key) in
  (is_ok (fst (cacheDir_get sha1_hex Join c key w)) = false
   <-> c = EmptyString \/ Words.missing w name \/ Words.unreadable w name
       \/ Words.stale w name)
  /\ (c <> EmptyString -> Words.stale w name -> stat_fault w name = None ->
      fst (cacheDir_get sha1_hex Join c key w) = Err ErrNotExist)
  /\ (forall f, c <> EmptyString -> files w !! name = Some f ->
        stat_fault w name = None -> read_fault w name = None ->
        now w - f_mtime f <= Hour ->
        fst (cacheDir_get sha1_hex Join c key w) = Ok (f_data f)).
Proof.
  cbv zeta. unfold Words.missing, Words.unreadable, Words.stale.
  split; [|split].
  - destruct (String.eqb_spec c EmptyString) as [->|Hc].
    { split; [now left | reflexivity]. }
    rewrite (get_unfold c key w Hc).
    destruct (files w !! _) as [f|] eqn:Ef.
    + destruct (stat_fault w _) as [e|] eqn:Es.
      { split; [intros _|reflexivity]. right; right; left. exists f. split; [reflexivity|].
        left. discriminate. }
      destruct (Z.ltb_spec (f_mtime f + Hour) (now w)) as [Hs|Hs].
      { split; [intros _|reflexivity]. right; right; right. exists f. split; [reflexivity|lia]. }
      destruct (read_fault w _) as [e|] eqn:Er.
      { split; [intros _|reflexivity]. right; right; left. exists f. split; [reflexivity|].
        right. discriminate. }
      split; [discriminate|].
      intros [E|[E|[(g & Eg & [E|E])|(g & Eg & E)]]]; try congruence.
      injection Eg as <-. lia.
    + split; [intros _; right; now left | reflexivity].
  - intros Hc (f & Ef & Hs) Es. rewrite (get_unfold c key w Hc), Ef, Es.
    destruct (Z.ltb_spec (f_mtime f + Hour) (now w)); [reflexivity | lia].
  - intros f Hc Ef Es Er Hage. rewrite (get_unfold c key w Hc), Ef, Es, Er.
    destruct (Z.ltb_spec (f_mtime f + Hour) (now w)); [lia | reflexivity].
Qed.

(** C6. After a [put] that succeeded under a set cache root, a [get] of
    the same handle at most one hour later returns the payload unchanged,
    provided the file can be read: both derive the file name
    [Join c (sha1_hex h)]. *)
Theorem cache_put_get (c h data : string) (w w' : World) (d : Z) :
  c <> EmptyString ->
  cacheDir_put sha1_hex Join c h data w = (None, w') ->
  d <= Hour ->
  stat_fault w (Join c (sha1_hex h)) = None ->
  read_fault w (Join c (sha1_hex h)) = None ->
  fst (cacheDir_get sha1_hex Join c h (later d w')) = Ok data.
Proof.
  intros Hc Hput Hd Es Er. rewrite (get_unfold c h _ Hc).
  unfold cacheDir_put, os_MkdirAll, ioutil_WriteFile in Hput.
  apply eqb_empty in Hc. rewrite Hc in Hput.
  destruct (mkdir_fault w c); [discriminate|].
  simpl in Hput. destruct (write_fault w _); [discriminate|].
  injection Hput as <-. simpl.
  rewrite lookup_insert_eq, Es, Er. simpl.
  destruct (Z.ltb_spec (now w + Hour) (now w + d)); [lia | reflexivity].
Qed.

End CacheFacts.

Lemma cache_put_get_witness :
  fst (cacheDir_get Sample.sha1_hex Sample.Join Sample.cache "alice"
         (later 1800000000000
            (snd (cacheDir_put Sample.sha1_hex Sample.Join Sample.cache "alice"
                    Sample.alice_keys Sample.world))))
  = Ok Sample.alice_keys.
Proof.
  apply (cache_put_get Sample.sha1_hex Sample.Join Sample.cache "alice"
           Sample.alice_keys Sample.world).
  - discriminate.
  - vm_compute. reflexivity.
  - vm_compute. discriminate.
  - reflexivity.
  - reflexivity.
Defined.

(** ** The argument rewriter *)

Module TraceFacts.
Import Words.

Lemma no_exec_refl (w : World) : no_exec w w.
Proof. exists []. split; [unfold did; now rewrite app_nil_r | constructor]. Qed.

Lemma no_exec_trans (w1 w2 w3 : World) : no_exec w1 w2 -> no_exec w2 w3 -> no_exec w1 w3.
Proof.
  intros (e1 & H1 & F1) (e2 & H2 & F2). exists (e1 ++ e2)%list. unfold did in *.
  split; [now rewrite H2, H1, app_assoc | now apply Forall_app].
Qed.

Lemma no_exec_record (w w1 : World) (e : Event) :
  no_exec w w1 -> is_exec e = false -> no_exec w (record e w1).
Proof.
  intros (evs & H & F) He. exists (evs ++ [e])%list. unfold did in *. simpl.
  split; [now rewrite H, app_assoc | apply Forall_app; split; [assumption | now constructor]].
Qed.

Lemma no_exec_with_files (w w1 : World) (fs : gmap string File) :
  no_exec w w1 -> no_exec w (with_files fs w1).
Proof. intros (evs & H & F). exists evs. split; assumption. Qed.

Lemma no_exec_not_in (w w' : World) (argv0 : string) (argv envv : list string) :
  no_exec w w' -> ~ In (EvExec argv0 argv envv) (trace w) ->
  ~ In (EvExec argv0 argv envv) (trace w').
Proof.
  intros (evs & H & F) Hw Hin. unfold did in H. rewrite H in Hin.
  apply in_app_or in Hin as [Hin|Hin]; [auto|].
  rewrite List.Forall_forall in F. specialize (F _ Hin). discriminate.
Qed.

End TraceFacts.

Create HintDb quiet.
#[local] Hint Resolve TraceFacts.no_exec_refl TraceFacts.no_exec_record
  TraceFacts.no_exec_with_files : quiet.

Lemma isRecipientFlag_In (f : string) :
  isRecipientFlag f = true <-> In f Words.recipient_flags.
Proof.
  unfold isRecipientFlag, Words.recipient_flags. simpl.
  rewrite !orb_true_iff, !String.eqb_eq. intuition congruence.
Qed.

(** The guard of the first branch of the loop body. *)
Lemma guard_placeholder (args : list string) (i : nat) (v : string) :
  Str.HasPrefix v "@" && (0 <? Z.of_nat i)
  && isRecipientFlag (default EmptyString (args !! (i - 1)%nat)) = true
  <-> Words.placeholder args i v.
Proof.
  unfold Words.placeholder. rewrite !andb_true_iff, isRecipientFlag_In, Z.ltb_lt.
  split.
  - intros [[Hp Hi] Hf]. split; [assumption|]. split; [lia|].
    destruct (args !! (i - 1)%nat) as [f|]; simpl in Hf.
    + now exists f.
    + simpl in Hf. intuition discriminate.
  - intros (Hp & Hi & f & Ef & Hf). rewrite Ef. simpl. repeat split; [assumption|lia|assumption].
Qed.

Section RewriteFacts.

Variable sha1_hex : string -> string.
Variable Join : string -> string -> string.
Variable Quote : string -> string.

Lemma rewriteArg_placeholder (args : list string) (cache : string) (i : nat) (v : string)
    (ageArgs : list string) (w : World) :
  Words.placeholder args i v ->
  rewriteArg sha1_hex Join Quote args cache i v ageArgs w
  = substitute sha1_hex Join Quote cache (Str.from 1 v) (fun key0 => [key0]) ageArgs w.
Proof.
  intros H. apply guard_placeholder in H. unfold rewriteArg, substitute. rewrite H.
  reflexivity.
Qed.

Lemma rewriteArg_attached (args : list string) (cache : string) (i : nat) (F V : string)
    (ageArgs : list string) (w : World) :
  In F Words.recipient_flags ->
  rewriteArg sha1_hex Join Quote args cache i (F +:+ "=" +:+ V) ageArgs w
  = if Str.HasPrefix V "@"
    then substitute sha1_hex Join Quote cache (Str.from 1 V) (fun key0 => ["-r"; key0]) ageArgs w
    else (Ok (ageArgs ++ [F +:+ "=" +:+ V])%list, w).
Proof.
  intros HF. unfold rewriteArg, substitute.
  assert (E1 : Str.HasPrefix (F +:+ "=" +:+ V) "@" = false).
  { simpl in HF. destruct HF as [<-|[<-|[<-|[<-|[]]]]]; reflexivity. }
  assert (E2 : Str.IndexByte (F +:+ "=" +:+ V) "=" = Str.len F).
  { apply StrFacts.IndexByte_append.
    simpl in HF. destruct HF as [<-|[<-|[<-|[<-|[]]]]]; reflexivity. }
  assert (E3 : (0 <? Str.len F) = true).
  { simpl in HF. destruct HF as [<-|[<-|[<-|[<-|[]]]]]; reflexivity. }
  rewrite E1, E2, E3. simpl andb.
  rewrite StrFacts.upto_len.
  change ("=" +:+ V) with (String "=" V). rewrite (StrFacts.from_after F V "=").
  apply isRecipientFlag_In in HF. rewrite HF.
  destruct (Str.HasPrefix V "@"); reflexivity.
Qed.

Lemma rewriteArg_other (args : list string) (cache : string) (i : nat) (v : string)
    (ageArgs : list string) (w : World) :
  ~ Words.placeholder args i v -> ~ Words.attached_placeholder v ->
  rewriteArg sha1_hex Join Quote args cache i v ageArgs w = (Ok (ageArgs ++ [v])%list, w).
Proof.
  intros Hp Ha. unfold rewriteArg.
  destruct (Str.HasPrefix v "@" && (0 <? Z.of_nat i)
            && isRecipientFlag (default EmptyString (args !! (i - 1)%nat))) eqn:G.
  { destruct Hp. now apply guard_placeholder. }
  destruct ((0 <? Str.IndexByte v "=")
            && isRecipientFlag (Str.upto (Z.to_nat (Str.IndexByte v "=")) v)) eqn:G2;
    [|reflexivity].
  destruct (Str.HasPrefix (Str.from (Z.to_nat (Str.IndexByte v "=" + 1)) v) "@") eqn:G3;
    [|reflexivity].
  destruct Ha. apply andb_prop in G2 as [Hj HF]. apply Z.ltb_lt in Hj.
  exists (Str.upto (Z.to_nat (Str.IndexByte v "=")) v),
         (Str.from (Z.to_nat (Str.IndexByte v "=" + 1)) v).
  split; [split|assumption].
  - apply StrFacts.IndexByte_split. lia.
  - now apply isRecipientFlag_In.
Qed.

Lemma substitute_ok (cache h : string) (tokens : string -> list string)
    (ageArgs out : list string) (w w1 : World) :
  substitute sha1_hex Join Quote cache h tokens ageArgs w = (Ok out, w1) ->
  exists key0 keys,
    fetchGithubKeys sha1_hex Join Quote h cache w = (Ok (key0 :: keys), w1)
    /\ out = (ageArgs ++ tokens key0)%list.
Proof.
  unfold substitute. destruct (fetchGithubKeys _ _ _ h cache w) as [[[|k keys]|e] w'];
    intros E; try discriminate.
  injection E as <- <-. eauto.
Qed.

Lemma substitute_no_keys (cache h : string) (tokens : string -> list string)
    (ageArgs : list string) (w w1 : World) :
  fetchGithubKeys sha1_hex Join Quote h cache w = (Ok [], w1) ->
  substitute sha1_hex Join Quote cache h tokens ageArgs w
  = (Err ("no keys found for github user " +:+ Quote h), w1).
Proof. unfold substitute. now intros ->. Qed.

Lemma cacheDir_get_no_exec (c key : string) (w : World) :
  Words.no_exec w (snd (cacheDir_get sha1_hex Join c key w)).
Proof.
  unfold cacheDir_get, os_Stat, ioutil_ReadFile.
  destruct (String.eqb c EmptyString); [apply TraceFacts.no_exec_refl|].
  destruct (files w !! _); [|simpl; auto with quiet].
  destruct (stat_fault w _); [simpl; auto with quiet|].
  destruct (_ <? _); [simpl; auto with quiet|]. simpl.
  destruct (files w !! _); [|simpl; auto with quiet].
  destruct (read_fault w _); simpl; auto with quiet.
Qed.

Lemma cacheDir_put_no_exec (c key data : string) (w : World) :
  Words.no_exec w (snd (cacheDir_put sha1_hex Join c key data w)).
Proof.
  unfold cacheDir_put, os_MkdirAll, ioutil_WriteFile.
  destruct (String.eqb c EmptyString); [apply TraceFacts.no_exec_refl|].
  destruct (mkdir_fault w c); [simpl; auto with quiet|].
  destruct (write_fault _ _); simpl; auto 6 with quiet.
Qed.

(** Resolving a handle never calls [syscall.Exec]. *)
Lemma fetchGithubKeys_no_exec (h cache : string) (w : World) :
  Words.no_exec w (snd (fetchGithubKeys sha1_hex Join Quote h cache w)).
Proof.
  unfold fetchGithubKeys.
  destruct (negb (validGithubHandle h)); [apply TraceFacts.no_exec_refl|].
  pose proof (cacheDir_get_no_exec cache h w) as Hget.
  destruct (cacheDir_get sha1_hex Join cache h w) as [[data|e] w1]; simpl in Hget;
    [exact Hget|].
  unfold http_Do.
  assert (Hdo : Words.no_exec w
                  (record (EvHTTPGet ("https://github.com/" +:+ h +:+ ".keys")
                             "github.com/artyom/age-github") w1))
    by auto with quiet.
  destruct (http w1 _) as [resp|e']; [|exact Hdo].
  destruct (negb (StatusCode resp =? 200)); [exact Hdo|].
  destruct (negb (Str.HasPrefix (ContentType resp) "text/plain")); [exact Hdo|].
  destruct (parseReaderToKeys _ _) as [[keys|e'] n]; [|exact Hdo].
  match goal with
  | |- context [cacheDir_put sha1_hex Join cache h ?buf ?w2] =>
      pose proof (cacheDir_put_no_exec cache h buf w2) as Hput;
      destruct (cacheDir_put sha1_hex Join cache h buf w2) as [r w3]
  end.
  simpl in *. eapply TraceFacts.no_exec_trans; [exact Hdo | exact Hput].
Qed.

Lemma substitute_no_exec (cache h : string) (tokens : string -> list string)
    (ageArgs : list string) (w : World) :
  Words.no_exec w (snd (substitute sha1_hex Join Quote cache h tokens ageArgs w)).
Proof.
  unfold substitute. pose proof (fetchGithubKeys_no_exec h cache w) as H.
  destruct (fetchGithubKeys _ _ _ h cache w) as [[[|k keys]|e] w']; exact H.
Qed.

(** What the loop body does, case by case. *)
Lemma rewriteArg_cases (args : list string) (cache : string) (i : nat) (v : string)
    (ageArgs : list string) (w : World) :
  (Words.placeholder args i v
   /\ rewriteArg sha1_hex Join Quote args cache i v ageArgs w
      = substitute sha1_hex Join Quote cache (Str.from 1 v) (fun key0 => [key0]) ageArgs w)
  \/ (~ Words.placeholder args i v
      /\ exists F V, Words.attached v F V /\ Str.HasPrefix V "@" = true
         /\ rewriteArg sha1_hex Join Quote args cache i v ageArgs w
            = substitute sha1_hex Join Quote cache (Str.from 1 V)
                (fun key0 => ["-r"; key0]) ageArgs w)
  \/ (~ Words.placeholder args i v
      /\ rewriteArg sha1_hex Join Quote args cache i v ageArgs w
         = (Ok (ageArgs ++ [v])%list, w)).
Proof.
  destruct (Str.HasPrefix v "@" && (0 <? Z.of_nat i)
            && isRecipientFlag (default EmptyString (args !! (i - 1)%nat))) eqn:G.
  { apply guard_placeholder in G. left. split; [assumption|].
    now apply rewriteArg_placeholder. }
  assert (Hp : ~ Words.placeholder args i v).
  { intros H. apply guard_placeholder in H. congruence. }
  right.
  destruct ((0 <? Str.IndexByte v "=")
            && isRecipientFlag (Str.upto (Z.to_nat (Str.IndexByte v "=")) v)) eqn:G2.
  - apply andb_prop in G2 as [Hj HF]. apply Z.ltb_lt in Hj.
    apply isRecipientFlag_In in HF.
    pose proof (StrFacts.IndexByte_split v "=" ltac:(lia)) as Ev.
    set (F := Str.upto (Z.to_nat (Str.IndexByte v "=")) v) in *.
    set (V := Str.from (Z.to_nat (Str.IndexByte v "=" + 1)) v) in *.
    pose proof (rewriteArg_attached args cache i F V ageArgs w HF) as R.
    change ("=" +:+ V) with (String "=" V) in R. rewrite <- Ev in R.
    destruct (Str.HasPrefix V "@") eqn:G3.
    + left. split; [assumption|]. exists F, V. repeat split; assumption.
    + right. split; assumption.
  - right. split; [assumption|]. unfold rewriteArg. now rewrite G, G2.
Qed.

Lemma rewriteArg_no_exec (args : list string) (cache : string) (i : nat) (v : string)
    (ageArgs : list string) (w : World) :
  Words.no_exec w (snd (rewriteArg sha1_hex Join Quote args cache i v ageArgs w)).
Proof.
  destruct (rewriteArg_cases args cache i v ageArgs w)
    as [[_ ->]|[(_ & F & V & _ & _ & ->)|[_ ->]]];
    auto using substitute_no_exec with quiet.
Qed.

Lemma rewriteFrom_no_exec (args : list string) (cache : string) (rest : list string) :
  forall i ageArgs w,
    Words.no_exec w (snd (rewriteFrom sha1_hex Join Quote args cache i rest ageArgs w)).
Proof.
  induction rest as [|v rest IH]; intros i ageArgs w; simpl; [auto with quiet|].
  pose proof (rewriteArg_no_exec args cache i v ageArgs w) as H.
  destruct (rewriteArg _ _ _ args cache i v ageArgs w) as [[acc|e] w1]; simpl in H.
  - eapply TraceFacts.no_exec_trans; [exact H | apply IH].
  - exact H.
Qed.

(** The loop over [pre ++ rest] is the loop over [pre], then over [rest]. *)
Lemma rewriteFrom_app (args : list string) (cache : string) (pre rest : list string) :
  forall i ageArgs w,
    rewriteFrom sha1_hex Join Quote args cache i (pre ++ rest) ageArgs w
    = match rewriteFrom sha1_hex Join Quote args cache i pre ageArgs w with
      | (Ok ageArgs', w') =>
          rewriteFrom sha1_hex Join Quote args cache (i + length pre) rest ageArgs' w'
      | (Err e, w') => (Err e, w')
      end.
Proof.
  induction pre as [|v pre IH]; intros i ageArgs w; simpl.
  - now rewrite Nat.add_0_r.
  - destruct (rewriteArg _ _ _ args cache i v ageArgs w) as [[acc|e] w1]; [|reflexivity].
    rewrite IH. now replace (S i + length pre)%nat with (i + S (length pre))%nat by lia.
Qed.

(** Without placeholders the loop copies the arguments and leaves the
    world alone. *)
Lemma rewriteFrom_plain (args : list string) (cache : string) (rest : list string) :
  forall i ageArgs w,
    (forall k v, rest !! k = Some v ->
                 ~ Words.placeholder args (i + k) v /\ ~ Words.attached_placeholder v) ->
    rewriteFrom sha1_hex Join Quote args cache i rest ageArgs w
    = (Ok (ageArgs ++ rest)%list, w).
Proof.
  induction rest as [|v rest IH]; intros i ageArgs w H; simpl.
  - now rewrite app_nil_r.
  - destruct (H 0%nat v eq_refl) as [Hp Ha]. rewrite Nat.add_0_r in Hp.
    rewrite (rewriteArg_other args cache i v ageArgs w Hp Ha), IH.
    + now rewrite <- app_assoc.
    + intros k u Hk. replace (S i + k)%nat with (i + S k)%nat by lia.
      now apply (H (S k)).
Qed.

End RewriteFacts.

(** ** The program as a whole *)

Section RunFacts.

Variable sha1_hex : string -> string.
Variable Join : string -> string -> string.
Variable Quote : string -> string.

(** The world in which the loop of [run] starts. *)
Lemma run_unfold (args : list string) (w : World) (ageBin : string) :
  args <> [] -> path_lookup w "age" = Ok ageBin ->
  run sha1_hex Join Quote args w
  = match rewriteFrom sha1_hex Join Quote args (cacheOf Join (user_cache_dir w)) 0 args
            [ageBin] (record EvUserCacheDir (record (EvLookPath "age") w)) with
    | (Err err, w3) => (Returned err, w3)
    | (Ok ageArgs, w3) => syscall_Exec ageBin ageArgs (environ w3) w3
    end.
Proof.
  intros Hne Hbin. unfold run, exec_LookPath, os_UserCacheDir. rewrite Hbin.
  destruct args as [|a args]; [now destruct Hne|]. reflexivity.
Qed.

(** A token that starts with [@] is not of the form [F=V]. *)
Lemma at_not_attached (v : string) :
  Str.HasPrefix v "@" = true -> ~ Words.attached_placeholder v.
Proof.
  intros Hv (F & V & [-> HF] & _). simpl in HF.
  destruct HF as [<-|[<-|[<-|[<-|[]]]]]; discriminate.
Qed.

(** The loop only appends to [ageArgs]. *)
Lemma rewriteFrom_prefix (args : list string) (cache : string) (rest : list string) :
  forall i ageArgs w out w',
    rewriteFrom sha1_hex Join Quote args cache i rest ageArgs w = (Ok out, w') ->
    exists toks, out = (ageArgs ++ toks)%list.
Proof.
  induction rest as [|v rest IH]; intros i ageArgs w out w' E; simpl in E.
  - injection E as <- <-. exists []. now rewrite app_nil_r.
  - destruct (rewriteArg _ _ _ args cache i v ageArgs w) as [[acc|e] w1] eqn:Ev;
      [|discriminate].
    apply IH in E as (toks & ->).
    destruct (rewriteArg_cases sha1_hex Join Quote args cache i v ageArgs w)
      as [[_ R]|[(_ & F & V & _ & _ & R)|[_ R]]]; rewrite R in Ev.
    + apply substitute_ok in Ev as (k & keys & _ & ->).
      eexists. now rewrite <- app_assoc.
    + apply substitute_ok in Ev as (k & keys & _ & ->).
      eexists. now rewrite <- app_assoc.
    + injection Ev as <- <-. eexists. now rewrite <- app_assoc.
Qed.

(** Every vector [run] hands to [syscall.Exec] starts with the path of
    the binary, which is also the program that is executed. *)
Lemma run_exec_event (args : list string) (w : World) (argv0 : string)
    (argv envv : list string) :
  In (EvExec argv0 argv envv) (trace (snd (run sha1_hex Join Quote args w))) ->
  ~ In (EvExec argv0 argv envv) (trace w) ->
  path_lookup w "age" = Ok argv0 /\ exists rest, argv = argv0 :: rest.
Proof.
  intros Hin Hw. destruct args as [|a args]; [now destruct Hw|].
  destruct (path_lookup w "age") as [ageBin|e] eqn:Hbin.
  - rewrite (run_unfold (a :: args) w ageBin ltac:(discriminate) Hbin) in Hin.
    set (w2 := record EvUserCacheDir (record (EvLookPath "age") w)) in *.
    assert (H2 : Words.no_exec w w2) by (unfold w2; auto with quiet).
    pose proof (rewriteFrom_no_exec sha1_hex Join Quote (a :: args)
                  (cacheOf Join (user_cache_dir w)) (a :: args) 0 [ageBin] w2) as H3.
    destruct (rewriteFrom _ _ _ _ _ _ _ _ _) as [[out|e] w3] eqn:E; simpl in H3.
    + pose proof (TraceFacts.no_exec_trans _ _ _ H2 H3) as H13.
      apply rewriteFrom_prefix in E as (toks & ->).
      assert (Hin' : In (EvExec argv0 argv envv)
                        (trace w3 ++ [EvExec ageBin ([ageBin] ++ toks) (environ w3)])).
      { unfold syscall_Exec in Hin. destruct (exec_fault w3 ageBin); exact Hin. }
      apply in_app_or in Hin' as [Hin'|[Hin'|[]]].
      * destruct (TraceFacts.no_exec_not_in _ _ _ _ _ H13 Hw Hin').
      * injection Hin' as <- <- <-. split; [reflexivity|]. now exists toks.
    + destruct (TraceFacts.no_exec_not_in _ _ _ _ _
                  (TraceFacts.no_exec_trans _ _ _ H2 H3) Hw Hin).
  - exfalso. unfold run, exec_LookPath in Hin. rewrite Hbin in Hin. simpl in Hin.
    apply in_app_or in Hin as [Hin|[Hin|[]]]; [auto | discriminate].
Qed.

(** A token the loop body keeps is not of the form [F=@handle]. *)
Lemma rewriteArg_kept (args : list string) (cache : string) (i : nat) (v : string)
    (ageArgs : list string) (w : World) :
  rewriteArg sha1_hex Join Quote args cache i v ageArgs w = (Ok (ageArgs ++ [v])%list, w) ->
  ~ Words.attached_placeholder v.
Proof.
  intros R (F & V & [-> HF] & HV).
  rewrite (rewriteArg_attached sha1_hex Join Quote _ _ _ _ _ _ _ HF), HV in R.
  unfold substitute in R.
  destruct (fetchGithubKeys _ _ _ _ _ _) as [[[|k ks]|e] w1]; try discriminate.
  injection R as R _. apply app_inv_head in R. discriminate.
Qed.

(** The loop does what the specification's rewriting says. *)
Lemma Rewrites_sound (args : list string) (cache : string) (i : nat) (rest : list string)
    (w : World) (toks : list string) (w' : World) :
  Rewrites sha1_hex Join Quote args cache i rest w toks w' ->
  forall ageArgs,
    rewriteFrom sha1_hex Join Quote args cache i rest ageArgs w
    = (Ok (ageArgs ++ toks)%list, w').
Proof.
  induction 1 as [i w
                 |i v rest w key0 keys w1 toks w' Hp Hfetch _ IH
                 |i v F V rest w key0 keys w1 toks w' Hp [-> HF] HV Hfetch _ IH
                 |i v rest w toks w' Hp Ha _ IH]; intros ageArgs; cbn [rewriteFrom].
  - now rewrite app_nil_r.
  - rewrite (rewriteArg_placeholder sha1_hex Join Quote _ _ _ _ _ _ Hp).
    unfold substitute. rewrite Hfetch, IH. now rewrite <- app_assoc.
  - rewrite (rewriteArg_attached sha1_hex Join Quote _ _ _ _ _ _ _ HF), HV.
    unfold substitute. rewrite Hfetch, IH. now rewrite <- app_assoc.
  - rewrite (rewriteArg_other sha1_hex Join Quote _ _ _ _ _ _ Hp Ha), IH.
    now rewrite <- app_assoc.
Qed.

(** What the loop returns is such a rewriting. *)
Lemma Rewrites_complete (args : list string) (cache : string) (rest : list string) :
  forall i ageArgs w out w',
    rewriteFrom sha1_hex Join Quote args cache i rest ageArgs w = (Ok out, w') ->
    exists toks,
      out = (ageArgs ++ toks)%list
      /\ Rewrites sha1_hex Join Quote args cache i rest w toks w'.
Proof.
  induction rest as [|v rest IH]; intros i ageArgs w out w' E; simpl in E.
  - injection E as <- <-. exists []. rewrite app_nil_r. split; [reflexivity | constructor].
  - destruct (rewriteArg _ _ _ args cache i v ageArgs w) as [[acc|e] w1] eqn:Ev;
      [|discriminate].
    apply IH in E as (toks & -> & Hrest).
    destruct (rewriteArg_cases sha1_hex Join Quote args cache i v ageArgs w)
      as [[Hp R]|[(Hp & F & V & HFV & HV & R)|[Hp R]]]; rewrite R in Ev.
    + apply substitute_ok in Ev as (key0 & keys & Hfetch & ->).
      exists (key0 :: toks). rewrite <- app_assoc. split; [reflexivity|].
      eapply Rewrites_in_place; eassumption.
    + apply substitute_ok in Ev as (key0 & keys & Hfetch & ->).
      exists ("-r" :: key0 :: toks). rewrite <- app_assoc. split; [reflexivity|].
      eapply Rewrites_expand; eassumption.
    + injection Ev as <- <-.
      exists (v :: toks). rewrite <- app_assoc. split; [reflexivity|].
      apply Rewrites_keep; [exact Hp | exact (rewriteArg_kept _ _ _ _ _ _ R) | exact Hrest].
Qed.

(** Without [F=@handle] tokens a rewriting keeps the number of tokens and
    the place of every token that is not a placeholder. *)
Lemma Rewrites_placed (args : list string) (cache : string) (i : nat) (rest : list string)
    (w : World) (toks : list string) (w' : World) :
  Rewrites sha1_hex Join Quote args cache i rest w toks w' ->
  (forall v, In v rest -> ~ Words.attached_placeholder v) ->
  length toks = length rest
  /\ forall k v, rest !! k = Some v -> ~ Words.placeholder args (i + k) v ->
                 toks !! k = Some v.
Proof.
  induction 1 as [i w
                 |i v rest w key0 keys w1 toks w' Hp Hfetch _ IH
                 |i v F V rest w key0 keys w1 toks w' Hp HFV HV Hfetch _ IH
                 |i v rest w toks w' Hp Ha _ IH]; intros Hna.
  - split; [reflexivity | intros k v Hk; discriminate].
  - destruct (IH ltac:(intros u Hu; apply Hna; now right)) as [Hlen Hat].
    split; [simpl; now rewrite Hlen|].
    intros [|k] u Hk Hn.
    + injection Hk as <-. rewrite Nat.add_0_r in Hn. now destruct Hn.
    + simpl in Hk. apply (Hat k u Hk). now replace (S i + k)%nat with (i + S k)%nat by lia.
  - destruct (Hna v ltac:(now left)). exists F, V. split; assumption.
  - destruct (IH ltac:(intros u Hu; apply Hna; now right)) as [Hlen Hat].
    split; [simpl; now rewrite Hlen|].
    intros [|k] u Hk Hn.
    + now injection Hk as <-.
    + simpl in Hk. apply (Hat k u Hk). now replace (S i + k)%nat with (i + S k)%nat by lia.
Qed.

(** Without [F=@handle] tokens before it, the token that stands for a
    placeholder is the first key of the call made for it, in the world
    the loop has reached when it comes to the placeholder. *)
Lemma rewriteFrom_at (args : list string) (cache : string) (pre post : list string)
    (v : string) (ageArgs : list string) (w : World) (out : list string) (w' : World) :
  rewriteFrom sha1_hex Join Quote args cache 0 (pre ++ v :: post) ageArgs w = (Ok out, w') ->
  (forall u, In u pre -> ~ Words.attached_placeholder u) ->
  Words.placeholder args (length pre) v ->
  exists ageArgs' wi key0 keys w1,
    rewriteFrom sha1_hex Join Quote args cache 0 pre ageArgs w = (Ok ageArgs', wi)
    /\ fetchGithubKeys sha1_hex Join Quote (Str.from 1 v) cache wi = (Ok (key0 :: keys), w1)
    /\ out !! (length ageArgs + length pre)%nat = Some key0.
Proof.
  intros E Hna Hp. rewrite rewriteFrom_app in E.
  destruct (rewriteFrom sha1_hex Join Quote args cache 0 pre ageArgs w)
    as [[acc|e] wi] eqn:Epre; [|discriminate].
  simpl in E. rewrite (rewriteArg_placeholder sha1_hex Join Quote _ _ _ _ _ _ Hp) in E.
  unfold substitute in E.
  destruct (fetchGithubKeys sha1_hex Join Quote (Str.from 1 v) cache wi)
    as [[[|key0 keys]|e] w1] eqn:Hfetch; try discriminate.
  apply rewriteFrom_prefix in E as (more & ->).
  destruct (Rewrites_complete _ _ _ _ _ _ _ _ Epre) as (tpre & -> & Hpre).
  destruct (Rewrites_placed _ _ _ _ _ _ _ Hpre Hna) as [Hlen _].
  exists (ageArgs ++ tpre)%list, wi, key0, keys, w1.
  split; [reflexivity|]. split; [exact Hfetch|].
  rewrite <- Hlen, <- length_app, <- app_assoc. simpl. apply list_lookup_middle. reflexivity.
Qed.

(** C1. The loop of [run] replaces the token [v] at position [i] by the
    single first key resolved for [v[1:]] if and only if [v] starts with
    [@], [i > 0] and the token before it is one of [-r], [--r],
    [-recipient], [--recipient]; any other token is kept as it is or is
    an [F=@handle] token turned into two tokens.  A token at position 0
    that starts with [@] is kept.  The loop returns a vector exactly when
    the arguments can be rewritten in this way, each key being the first
    one of the call made for it in this run, and the vector is the path of
    the binary followed by the rewritten tokens.  On a vector without
    [F=@handle] tokens the rewrite keeps the number of tokens and the place
    of every token it does not substitute, and puts at the place of each
    placeholder the first key of the call made for it. *)
Theorem rewrite_in_place (args : list string) (cache : string) :
  (forall i v ageArgs w,
      Words.placeholder args i v ->
      rewriteArg sha1_hex Join Quote args cache i v ageArgs w
      = substitute sha1_hex Join Quote cache (Str.from 1 v) (fun key0 => [key0]) ageArgs w)
  /\ (forall i v ageArgs w,
        ~ Words.placeholder args i v ->
        rewriteArg sha1_hex Join Quote args cache i v ageArgs w
        = (Ok (ageArgs ++ [v])%list, w)
        \/ exists F V,
            Words.attached v F V /\ Str.HasPrefix V "@" = true
            /\ rewriteArg sha1_hex Join Quote args cache i v ageArgs w
               = substitute sha1_hex Join Quote cache (Str.from 1 V)
                   (fun key0 => ["-r"; key0]) ageArgs w)
  /\ (forall v ageArgs w,
        Str.HasPrefix v "@" = true ->
        rewriteArg sha1_hex Join Quote args cache 0 v ageArgs w
        = (Ok (ageArgs ++ [v])%list, w))
  /\ (forall ageBin w out w',
        rewriteFrom sha1_hex Join Quote args cache 0 args [ageBin] w = (Ok out, w')
        <-> exists toks,
            out = ageBin :: toks
            /\ Rewrites sha1_hex Join Quote args cache 0 args w toks w')
  /\ (forall ageBin w out w',
        (forall v, In v args -> ~ Words.attached_placeholder v) ->
        rewriteFrom sha1_hex Join Quote args cache 0 args [ageBin] w = (Ok out, w') ->
        length out = S (length args) /\ out !! 0%nat = Some ageBin
        /\ forall i v, args !! i = Some v ->
             (Words.placeholder args i v ->
              exists ageArgs wi key0 keys w1,
                rewriteFrom sha1_hex Join Quote args cache 0 (take i args) [ageBin] w
                = (Ok ageArgs, wi)
                /\ fetchGithubKeys sha1_hex Join Quote (Str.from 1 v) cache wi
                   = (Ok (key0 :: keys), w1)
                /\ out !! S i = Some key0)
             /\ (~ Words.placeholder args i v -> out !! S i = Some v)).
Proof.
  split; [|split; [|split; [|split]]].
  - intros i v ageArgs w H. now apply rewriteArg_placeholder.
  - intros i v ageArgs w Hn.
    destruct (rewriteArg_cases sha1_hex Join Quote args cache i v ageArgs w)
      as [[Hp _]|[(_ & F & V & HFV & HV & R)|[_ R]]].
    + now destruct Hn.
    + right. exists F, V. auto.
    + now left.
  - intros v ageArgs w Hv. apply rewriteArg_other.
    + intros (_ & Hi & _). lia.
    + now apply at_not_attached.
  - intros ageBin w out w'. split.
    + intros E. apply Rewrites_complete in E as (toks & -> & H). now exists toks.
    + intros (toks & -> & H). apply (Rewrites_sound _ _ _ _ _ _ _ H [ageBin]).
  - intros ageBin w out w' Hna E.
    destruct (Rewrites_complete _ _ _ _ _ _ _ _ E) as (toks & Hout & H).
    destruct (Rewrites_placed _ _ _ _ _ _ _ H Hna) as [Hlen Hat].
    split; [rewrite Hout; simpl; now rewrite Hlen|]. split; [now rewrite Hout|].
    intros i v Hi. split.
    + intros Hp.
      pose proof (take_drop_middle args i v Hi) as Hsplit.
      assert (Hi' : length (take i args) = i).
      { rewrite length_take. apply lookup_lt_Some in Hi. lia. }
      assert (E' : rewriteFrom sha1_hex Join Quote args cache 0
                     (take i args ++ v :: drop (S i) args) [ageBin] w = (Ok out, w'))
        by (rewrite Hsplit; exact E).
      apply rewriteFrom_at in E' as (acc & wi & key0 & keys & w1 & Hpre & Hfetch & Hk).
      * rewrite Hi' in Hk. exists acc, wi, key0, keys, w1. auto.
      * intros u Hu. apply Hna. rewrite <- Hsplit. apply in_or_app. now left.
      * now rewrite Hi'.
    + intros Hn. rewrite Hout. simpl. now apply (Hat i v Hi).
Qed.


(** C5. For a handle outside the grammar, resolution fails at once with
    the validation error and leaves the world as it was: no cache file was
    looked at and no request was sent, and the answer does not depend on
    the cache or the network. *)
Theorem fetchGithubKeys_rejects_invalid (username : string) :
  validGithubHandle username = false ->
  forall cache w,
    fetchGithubKeys sha1_hex Join Quote username cache w
    = (Err "not a valid github user name", w).
Proof. intros H cache w. unfold fetchGithubKeys. now rewrite H. Qed.

(** C8. When the handle of a placeholder, in either form, resolves to an
    empty key list, [run] returns the error [no keys found for github
    user %q] for that handle, [main] exits with status 1, and
    [syscall.Exec] was not called. *)
Theorem no_keys_aborts (args pre post : list string) (v h ageBin : string)
    (w wi wf : World) (ageArgs : list string) :
  args = (pre ++ v :: post)%list ->
  path_lookup w "age" = Ok ageBin ->
  let cache := cacheOf Join (user_cache_dir w) in
  rewriteFrom sha1_hex Join Quote args cache 0 pre [ageBin]
    (record EvUserCacheDir (record (EvLookPath "age") w)) = (Ok ageArgs, wi) ->
  (Words.placeholder args (length pre) v /\ h = Str.from 1 v
   \/ exists F V, Words.attached v F V /\ Str.HasPrefix V "@" = true /\ h = Str.from 1 V) ->
  fetchGithubKeys sha1_hex Join Quote h cache wi = (Ok [], wf) ->
  validGithubHandle h = true
  /\ run sha1_hex Join Quote args w
     = (Returned ("no keys found for github user " +:+ Quote h), wf)
  /\ (forall prog,
        main sha1_hex Join Quote (prog :: args) w
        = (Exited 1 (("no keys found for github user " +:+ Quote h) +:+ nl), wf))
  /\ Words.no_exec w wf.
Proof.
  intros Hargs Hbin cache Hpre Hform Hfetch.
  assert (Hvalid : validGithubHandle h = true).
  { unfold fetchGithubKeys in Hfetch.
    destruct (validGithubHandle h); [reflexivity | discriminate]. }
  assert (Hne : args <> []) by (rewrite Hargs; now destruct pre).
  assert (Hstep : rewriteArg sha1_hex Join Quote args cache (length pre) v ageArgs wi
                  = (Err ("no keys found for github user " +:+ Quote h), wf)).
  { destruct Hform as [[Hp ->]|(F & V & [-> HF] & HV & ->)].
    - rewrite (rewriteArg_placeholder sha1_hex Join Quote _ _ _ _ _ _ Hp).
      now apply substitute_no_keys.
    - rewrite (rewriteArg_attached sha1_hex Join Quote _ _ _ _ _ _ _ HF), HV.
      now apply substitute_no_keys. }
  assert (Hrun : run sha1_hex Join Quote args w
                 = (Returned ("no keys found for github user " +:+ Quote h), wf)).
  { rewrite (run_unfold args w ageBin Hne Hbin). fold cache.
    rewrite Hargs at 2. rewrite rewriteFrom_app, Hpre. simpl. now rewrite Hstep. }
  split; [exact Hvalid|]. split; [exact Hrun|]. split.
  - intros prog. unfold main. change (drop 1 (prog :: args)) with args. now rewrite Hrun.
  - pose proof (rewriteFrom_no_exec sha1_hex Join Quote args cache pre 0 [ageBin]
                  (record EvUserCacheDir (record (EvLookPath "age") w))) as H1.
    rewrite Hpre in H1. simpl in H1.
    pose proof (fetchGithubKeys_no_exec sha1_hex Join Quote h cache wi) as H2.
    rewrite Hfetch in H2. simpl in H2.
    eapply TraceFacts.no_exec_trans; [|exact H2].
    eapply TraceFacts.no_exec_trans; [|exact H1]. auto with quiet.
Qed.

(** C9. On a non-empty vector without placeholders of either form, [run]
    calls [syscall.Exec] with the arguments unchanged after the path of
    the binary, having looked up only the binary and the cache directory.
    Every vector handed to [syscall.Exec] starts with that path. *)
Theorem rewrite_frame (args : list string) (w : World) :
  (forall ageBin,
      args <> [] -> path_lookup w "age" = Ok ageBin ->
      (forall i v, args !! i = Some v ->
                   ~ Words.placeholder args i v /\ ~ Words.attached_placeholder v) ->
      run sha1_hex Join Quote args w
      = syscall_Exec ageBin (ageBin :: args) (environ w)
          (record EvUserCacheDir (record (EvLookPath "age") w)))
  /\ (forall argv0 argv envv,
        In (EvExec argv0 argv envv) (trace (snd (run sha1_hex Join Quote args w))) ->
        ~ In (EvExec argv0 argv envv) (trace w) ->
        path_lookup w "age" = Ok argv0 /\ exists rest, argv = argv0 :: rest).
Proof.
  split.
  - intros ageBin Hne Hbin Hplain.
    rewrite (run_unfold args w ageBin Hne Hbin).
    rewrite (rewriteFrom_plain sha1_hex Join Quote); [reflexivity|].
    intros k v Hk. apply (Hplain k v Hk).
  - intros argv0 argv envv. apply run_exec_event.
Qed.

(** C10. With no argument at all, [run] returns the usage text as its
    error without touching the world (no lookup of the binary, no
    request, no exec), and [main] writes it, followed by a newline, to the
    error stream and exits with status 1. *)
Theorem run_no_arguments (w : World) :
  run sha1_hex Join Quote [] w = (Returned usage, w)
  /\ forall prog, main sha1_hex Join Quote [prog] w = (Exited 1 (usage +:+ nl), w).
Proof. split; [reflexivity | intros prog; reflexivity]. Qed.

End RunFacts.

(** ** The properties at work on the sample machine *)

Lemma rewrite_in_place_witness :
  rewriteFrom Sample.sha1_hex Sample.Join Sample.Quote ["-r"; "@alice"; "file.txt"]
    Sample.cache 0 ["-r"; "@alice"; "file.txt"] ["/usr/bin/age"] Sample.world
  = (Ok ["/usr/bin/age"; "-r"; "ssh-ed25519 AAA"; "file.txt"],
     snd (fetchGithubKeys Sample.sha1_hex Sample.Join Sample.Quote "alice" Sample.cache
            Sample.world)).
Proof.
  destruct (rewrite_in_place Sample.sha1_hex Sample.Join Sample.Quote
              ["-r"; "@alice"; "file.txt"] Sample.cache) as (_ & _ & _ & H & _).
  apply H. exists ["-r"; "ssh-ed25519 AAA"; "file.txt"]. split; [reflexivity|].
  assert (Hplain : forall u, Str.HasPrefix u "@" = false ->
                             Str.IndexByte u "=" = -1 ->
                             ~ Words.attached_placeholder u).
  { intros u _ Hu (F & V & [-> HF] & _).
    pose proof (StrFacts.IndexByte_range (F +:+ "=" +:+ V) "=") as Hr.
    simpl in HF. destruct HF as [<-|[<-|[<-|[<-|[]]]]]; discriminate. }
  apply Rewrites_keep.
  - intros (Hp & _). discriminate.
  - now apply Hplain.
  - apply Rewrites_in_place
      with (keys := ["ssh-rsa BBB"])
           (w1 := snd (fetchGithubKeys Sample.sha1_hex Sample.Join Sample.Quote "alice"
                         Sample.cache Sample.world)).
    + split; [reflexivity|]. split; [lia|]. exists "-r". split; [reflexivity | now left].
    + vm_compute. reflexivity.
    + apply Rewrites_keep.
      * intros (Hp & _). discriminate.
      * now apply Hplain.
      * apply Rewrites_done.
Defined.


Lemma fetchGithubKeys_rejects_invalid_witness :
  fetchGithubKeys Sample.sha1_hex Sample.Join Sample.Quote "1abc" Sample.cache Sample.world
  = (Err "not a valid github user name", Sample.world).
Proof. apply fetchGithubKeys_rejects_invalid. reflexivity. Defined.

Lemma no_keys_aborts_witness :
  fst (run Sample.sha1_hex Sample.Join Sample.Quote ["-r"; "@nokeys"; "f"] Sample.world)
  = Returned ("no keys found for github user " +:+ Sample.Quote "nokeys").
Proof.
  destruct (no_keys_aborts Sample.sha1_hex Sample.Join Sample.Quote
              ["-r"; "@nokeys"; "f"] ["-r"] ["f"] "@nokeys" "nokeys" "/usr/bin/age"
              Sample.world
              (record EvUserCacheDir (record (EvLookPath "age") Sample.world))
              (snd (fetchGithubKeys Sample.sha1_hex Sample.Join Sample.Quote "nokeys"
                      Sample.cache
                      (record EvUserCacheDir (record (EvLookPath "age") Sample.world))))
              ["/usr/bin/age"; "-r"]) as (_ & H & _).
  - reflexivity.
  - reflexivity.
  - vm_compute. reflexivity.
  - left. split; [|reflexivity].
    split; [reflexivity|]. split; [simpl; lia|]. exists "-r". split; [reflexivity | now left].
  - vm_compute. reflexivity.
  - rewrite H. reflexivity.
Defined.

Lemma rewrite_frame_witness :
  fst (run Sample.sha1_hex Sample.Join Sample.Quote ["@notes"; "-a"; "x=@y"] Sample.world)
  = Replaced "/usr/bin/age" ["/usr/bin/age"; "@notes"; "-a"; "x=@y"] ["HOME=/home/u"].
Proof.
  destruct (rewrite_frame Sample.sha1_hex Sample.Join Sample.Quote
              ["@notes"; "-a"; "x=@y"] Sample.world) as [H _].
  rewrite (H "/usr/bin/age").
  - reflexivity.
  - discriminate.
  - reflexivity.
  - intros i v Hi. split.
    + intros Hp. apply guard_placeholder in Hp.
      destruct i as [|[|[|i]]]; simpl in Hi; try discriminate;
        injection Hi as <-; vm_compute in Hp; discriminate.
    + intros (F & V & [E HF] & _). simpl in HF.
      destruct i as [|[|[|i]]]; simpl in Hi; try discriminate; injection Hi as <-;
        destruct HF as [<-|[<-|[<-|[<-|[]]]]]; discriminate.
Defined.

(** The two scenarios of the specification. *)
Example run_recipient_after_flag :
  fst (run Sample.sha1_hex Sample.Join Sample.Quote ["-r"; "@alice"; "file.txt"] Sample.world)
  = Replaced "/usr/bin/age" ["/usr/bin/age"; "-r"; "ssh-ed25519 AAA"; "file.txt"]
      ["HOME=/home/u"].
Proof. vm_compute. reflexivity. Qed.

Example run_recipient_attached :
  fst (run Sample.sha1_hex Sample.Join Sample.Quote ["--recipient=@alice"; "f"] Sample.world)
  = Replaced "/usr/bin/age" ["/usr/bin/age"; "-r"; "ssh-ed25519 AAA"; "f"] ["HOME=/home/u"].
Proof. vm_compute. reflexivity. Qed.

Lemma cacheDir_get_fails_exactly_witness :
  let w := later (Hour + 1)
             (snd (cacheDir_put Sample.sha1_hex Sample.Join Sample.cache "alice"
                     Sample.alice_keys Sample.world)) in
  fst (cacheDir_get Sample.sha1_hex Sample.Join Sample.cache "alice" w) = Err ErrNotExist
  /\ fst (cacheDir_get Sample.sha1_hex Sample.Join Sample.cache "alice" (later (-1) w))
     = Ok Sample.alice_keys.
Proof.
  cbv zeta. split.
  - destruct (cacheDir_get_fails_exactly Sample.sha1_hex Sample.Join Sample.cache "alice"
                (later (Hour + 1)
                   (snd (cacheDir_put Sample.sha1_hex Sample.Join Sample.cache "alice"
                           Sample.alice_keys Sample.world)))) as (_ & Hstale & _).
    apply Hstale; [discriminate | | reflexivity].
    exists (mkFile 1700000000000000000 Sample.alice_keys).
    split; [vm_compute; reflexivity | vm_compute; reflexivity].
  - destruct (cacheDir_get_fails_exactly Sample.sha1_hex Sample.Join Sample.cache "alice"
                (later (-1)
                   (later (Hour + 1)
                      (snd (cacheDir_put Sample.sha1_hex Sample.Join Sample.cache "alice"
                              Sample.alice_keys Sample.world))))) as (_ & _ & Hfresh).
    apply (Hfresh (mkFile 1700000000000000000 Sample.alice_keys));
      [discriminate | vm_compute; reflexivity | reflexivity | reflexivity
      | vm_compute; discriminate].
Defined.

(** * Further properties *)

(** ** More on key parsing *)

Module ParseMore.
Import Scanner KeyLines More.

Lemma no_newline_cons (c : ascii) (s : string) :
  no_newline (String c s) <-> Ascii.eqb c "010" = false /\ no_newline s.
Proof.
  unfold no_newline, Str.all. simpl. rewrite andb_true_iff, negb_true_iff. reflexivity.
Qed.

Lemma no_newline_nil : no_newline EmptyString.
Proof. reflexivity. Qed.

Lemma plist_eq (s : string) : pieces s = (hd EmptyString (plist s), tl (plist s)).
Proof. unfold plist. now destruct (pieces s). Qed.

Lemma plist_nil : plist EmptyString = [EmptyString].
Proof. reflexivity. Qed.

Lemma plist_cons (c : ascii) (s : string) :
  plist (String c s)
  = if Ascii.eqb c "010" then EmptyString :: plist s
    else String c (hd EmptyString (plist s)) :: tl (plist s).
Proof.
  unfold plist. simpl. destruct (pieces s) as [cur more].
  now destruct (Ascii.eqb c "010").
Qed.

Lemma plist_not_nil (s : string) : plist s <> [].
Proof. unfold plist. now destruct (pieces s). Qed.

Lemma plist_no_newline (s : string) : Forall no_newline (plist s).
Proof.
  induction s as [|c s IH]; [repeat constructor|].
  rewrite plist_cons. destruct (Ascii.eqb c "010") eqn:E.
  - constructor; [apply no_newline_nil | exact IH].
  - destruct (plist s) as [|p ps]; simpl.
    + repeat constructor. now apply no_newline_cons.
    + inversion IH; subst. constructor; [now apply no_newline_cons | assumption].
Qed.

Lemma dropCR_no_newline (s : string) : no_newline s -> no_newline (dropCR s).
Proof.
  induction s as [|c s IH]; [auto|]. intros H. apply no_newline_cons in H as [Hc Hs].
  simpl. destruct s as [|d s].
  - destruct (Ascii.eqb c "013"); [apply no_newline_nil | now apply no_newline_cons].
  - apply no_newline_cons. split; [assumption | now apply IH].
Qed.

Lemma scan_of_clean (raw : string) (stop : nat) :
  no_newline raw -> clean_scan (scan_of raw stop).
Proof.
  intros H. unfold scan_of. destruct (_ <=? _); simpl; [exact I | now apply dropCR_no_newline].
Qed.

Lemma scans_clean (ps : list string) :
  forall off, Forall no_newline ps -> Forall clean_scan (scans off ps).
Proof.
  induction ps as [|p rest IH]; intros off H; [constructor|].
  inversion H as [|? ? Hp Hrest]; subst. destruct rest as [|q rest].
  - simpl. destruct p; [constructor|]. repeat constructor. now apply scan_of_clean.
  - change (scans off (p :: q :: rest))
      with (scan_of p (off + String.length p + 1)
              :: scans (off + String.length p + 1) (q :: rest)).
    constructor; [now apply scan_of_clean | now apply IH].
Qed.

Lemma parseLoop_clean (total : nat) (sc : list scan) :
  Forall clean_scan sc ->
  forall out keys pos,
    (length out <= 10)%nat -> Forall clean_key out ->
    parseLoop total sc out = (Ok keys, pos) ->
    (length keys <= 10)%nat /\ Forall clean_key keys.
Proof.
  induction 1 as [|s sc Hs _ IH]; intros out keys pos Hlen Hout E; simpl in E.
  - injection E as <- <-. auto.
  - destruct s as [line stop|]; [|discriminate]. simpl in Hs.
    destruct (Z.eqb_spec (Z.of_nat (length out)) 10) as [E10|E10].
    + injection E as <- <-. auto.
    + destruct (Str.HasPrefix line "ssh-") eqn:Hk.
      * apply (IH (out ++ [line])%list keys pos); [| |exact E].
        -- rewrite length_app. simpl. lia.
        -- apply Forall_app. split; [assumption | repeat constructor; assumption].
      * apply (IH out keys pos Hlen Hout E).
Qed.

Lemma parse_clean (r : string) (ahead : nat) (keys : list string) :
  fst (parseReaderToKeys r ahead) = Ok keys ->
  (length keys <= 10)%nat /\ Forall clean_key keys.
Proof.
  unfold parseReaderToKeys, NewScanner. rewrite plist_eq.
  pose proof (plist_no_newline r) as Hclean.
  pose proof (plist_not_nil r) as Hne.
  destruct (plist r) as [|cur more]; [now destruct Hne|]. simpl hd. simpl tl.
  destruct (parseLoop _ _ _) as [res pos] eqn:E. simpl. intros ->.
  apply (parseLoop_clean (String.length r) _ (scans_clean _ 0%nat Hclean) [] keys pos);
    [simpl; lia | constructor | exact E].
Qed.

End ParseMore.

(** X1. Whatever the input, a list of keys that [parseReaderToKeys]
    returns has at most ten entries, each begins with [ssh-], and none
    contains a newline. *)
Theorem parseReaderToKeys_keys (r : string) (ahead : nat) (keys : list string) :
  fst (parseReaderToKeys r ahead) = Ok keys ->
  (length keys <= 10)%nat /\ Forall More.clean_key keys.
Proof. apply ParseMore.parse_clean. Qed.

Lemma parseReaderToKeys_keys_witness :
  (length ["ssh-rsa A"; "ssh-ed25519 C"] <= 10)%nat
  /\ Forall More.clean_key ["ssh-rsa A"; "ssh-ed25519 C"].
Proof.
  apply (parseReaderToKeys_keys
           ("ssh-rsa A" +:+ String "013" nl +:+ "# ssh-rsa B" +:+ nl +:+ "ssh-ed25519 C") 0).
  vm_compute. reflexivity.
Defined.

Module ScanFacts.
Import Scanner KeyLines More.

Lemma append_assoc (a b c : string) : (a +:+ b) +:+ c = a +:+ (b +:+ c).
Proof. induction a as [|x a IH]; simpl; [reflexivity | now rewrite IH]. Qed.

Lemma length_append (a b : string) :
  String.length (a +:+ b) = (String.length a + String.length b)%nat.
Proof. induction a as [|x a IH]; simpl; [reflexivity | now rewrite IH]. Qed.

(** The pieces of [a ++ b]: those of [a], the last one continued by the
    first of [b], then the others of [b]. *)
Lemma plist_app (a b : string) :
  forall I la, plist a = (I ++ [la])%list ->
               plist (a +:+ b)
               = (I ++ (la +:+ hd EmptyString (plist b)) :: tl (plist b))%list.
Proof.
  induction a as [|c a IH]; intros I la E.
  - rewrite ParseMore.plist_nil in E. destruct I as [|i I].
    + injection E as <-. simpl. pose proof (ParseMore.plist_not_nil b).
      now destruct (plist b).
    + destruct I; discriminate.
  - change (String c a +:+ b) with (String c (a +:+ b)).
    rewrite ParseMore.plist_cons in *. destruct (Ascii.eqb c "010").
    + destruct I as [|i I].
      * injection E as _ E. now destruct (ParseMore.plist_not_nil a).
      * injection E as <- E. rewrite (IH I la E). reflexivity.
    + destruct (plist a) as [|x xs] eqn:Ea; [now destruct (ParseMore.plist_not_nil a)|].
      simpl in E. destruct I as [|i I].
      * injection E as <- ->. rewrite (IH [] x eq_refl). reflexivity.
      * injection E as <- ->. rewrite (IH (x :: I) la eq_refl). reflexivity.
Qed.

(** A line without newline, ended by a newline, is the first piece. *)
Lemma plist_line (l t : string) :
  no_newline l -> plist (l +:+ String "010" t) = l :: plist t.
Proof.
  induction l as [|c l IH]; intros H.
  - change (EmptyString +:+ String "010" t) with (String "010" t).
    now rewrite ParseMore.plist_cons.
  - apply ParseMore.no_newline_cons in H as [Hc Hl].
    change (String c l +:+ String "010" t) with (String c (l +:+ String "010" t)).
    now rewrite ParseMore.plist_cons, Hc, (IH Hl).
Qed.

Lemma plist_unlines (ls : list string) (rest : string) :
  Forall no_newline ls -> plist (unlines ls +:+ rest) = (ls ++ plist rest)%list.
Proof.
  induction 1 as [|l ls Hl _ IH]; [reflexivity|].
  change (unlines (l :: ls)) with (l +:+ String "010" (unlines ls)).
  rewrite append_assoc.
  change (String "010" (unlines ls) +:+ rest) with (String "010" (unlines ls +:+ rest)).
  rewrite (plist_line l _ Hl), IH. reflexivity.
Qed.

Lemma scans_app (I rest : list string) :
  rest <> [] ->
  forall off, scans off (I ++ rest)
              = (ended_scans off I ++ scans (off + ended_size I) rest)%list.
Proof.
  intros Hne. induction I as [|p I IH]; intros off.
  - simpl. now rewrite Nat.add_0_r.
  - destruct (I ++ rest)%list as [|q qs] eqn:E.
    + destruct I; [now destruct Hne | discriminate].
    + change ((p :: I) ++ rest)%list with (p :: (I ++ rest)%list). rewrite E.
      change (scans off (p :: q :: qs))
        with (scan_of p (off + String.length p + 1)
                :: scans (off + String.length p + 1) (q :: qs)).
      rewrite IH. simpl. do 3 f_equal. lia.
Qed.

Lemma ended_scans_short (ls : list string) :
  forall off, Forall short ls ->
              Forall2 hands_out (ended_scans off ls) (map dropCR ls).
Proof.
  induction ls as [|l ls IH]; intros off H; [constructor|].
  inversion H; subst. simpl. rewrite ParseFacts.scan_of_short by assumption.
  constructor; [eexists; reflexivity | now apply IH].
Qed.

(** Once ten keys are held and one more token comes, the loop returns:
    what follows that token plays no part. *)
Lemma parseLoop_early (total : nat) (ys : list scan) (body : list string) :
  forall xs l out,
    Forall2 hands_out xs (body ++ [l]) ->
    (length out <= 10)%nat ->
    (10 <= length out + length (List.filter is_key body))%nat ->
    fst (parseLoop total (xs ++ ys) out) = Ok (take 10 (out ++ List.filter is_key body)).
Proof.
  induction body as [|b body IH]; intros xs l out H Hle Hge.
  - inversion H as [|x ? xs' ? [stop ->] H']; subst. simpl in *.
    destruct (Z.eqb_spec (Z.of_nat (length out)) 10); [|lia].
    simpl. rewrite app_nil_r, take_ge by lia. reflexivity.
  - inversion H as [|x ? xs' ? [stop ->] H']; subst. simpl.
    destruct (Z.eqb_spec (Z.of_nat (length out)) 10).
    + simpl. rewrite take_app_length' by lia. reflexivity.
    + fold (is_key b). simpl in Hge. destruct (is_key b).
      * rewrite (IH xs' l (out ++ [b])%list H');
          [now rewrite <- app_assoc | rewrite length_app; simpl; lia
          | rewrite length_app; simpl in *; lia].
      * apply (IH xs' l out H'); lia.
Qed.

End ScanFacts.

(** X2. Scanning stops once ten keys are collected: when the first lines
    of a text hold ten keys or more and one more line follows them, the
    parser returns the first ten keys whatever comes after that line, be it
    a line too long for the scanner. *)
Theorem parseReaderToKeys_early_stop (ls : list string) (extra rest : string)
    (ahead : nat) :
  Forall More.no_newline (ls ++ [extra]) ->
  Forall KeyLines.short (ls ++ [extra]) ->
  (10 <= length (List.filter KeyLines.is_key (map Scanner.dropCR ls)))%nat ->
  fst (parseReaderToKeys (More.unlines (ls ++ [extra]) +:+ rest) ahead)
  = Ok (take 10 (List.filter KeyLines.is_key (map Scanner.dropCR ls))).
Proof.
  intros Hnl Hshort Hten. unfold parseReaderToKeys, Scanner.NewScanner.
  rewrite ParseMore.plist_eq, (ScanFacts.plist_unlines _ rest Hnl).
  pose proof (ParseMore.plist_not_nil rest) as Hne.
  assert (E : (hd EmptyString ((ls ++ [extra]) ++ More.plist rest)
               :: tl ((ls ++ [extra]) ++ More.plist rest))%list
              = ((ls ++ [extra]) ++ More.plist rest)%list)
    by (destruct ls; reflexivity).
  rewrite E, (ScanFacts.scans_app _ _ Hne).
  pose proof (ScanFacts.ended_scans_short _ 0%nat Hshort) as Htok.
  rewrite map_app in Htok. simpl in Htok.
  pose proof (ScanFacts.parseLoop_early
                (String.length (More.unlines (ls ++ [extra]) +:+ rest))
                (Scanner.scans (0 + More.ended_size (ls ++ [extra])) (More.plist rest))
                (map Scanner.dropCR ls) _ (Scanner.dropCR extra) [] Htok
                ltac:(simpl; lia) ltac:(simpl; lia)) as G.
  destruct (parseLoop _ _ _) as [res pos]. exact G.
Qed.

Lemma parseReaderToKeys_early_stop_witness :
  let ls := ["ssh-01"; "ssh-02"; "ssh-03"; "ssh-04"; "ssh-05"; "ssh-06"; "ssh-07";
             "ssh-08"; "ssh-09"; "ssh-10"] in
  fst (parseReaderToKeys (More.unlines (ls ++ ["# end"]) +:+ KeyLines.long_key +:+ nl) 0)
  = Ok ls.
Proof.
  cbv zeta.
  rewrite (parseReaderToKeys_early_stop
             ["ssh-01"; "ssh-02"; "ssh-03"; "ssh-04"; "ssh-05"; "ssh-06"; "ssh-07";
              "ssh-08"; "ssh-09"; "ssh-10"] "# end" (KeyLines.long_key +:+ nl) 0).
  - reflexivity.
  - repeat constructor.
  - repeat constructor.
  - simpl. lia.
Defined.

(** ** What the scanner has read is enough to parse again *)

Module PrefixFacts.
Import Scanner KeyLines More.

Lemma upto_all (r : string) : Str.upto (String.length r) r = r.
Proof. induction r as [|c r IH]; simpl; [reflexivity | now rewrite IH]. Qed.

Lemma upto_from (n : nat) (r : string) : r = Str.upto n r +:+ Str.from n r.
Proof.
  revert r. induction n as [|n IH]; intros r; [reflexivity|].
  destruct r as [|c r]; [reflexivity|]. simpl. now rewrite <- IH.
Qed.

Lemma length_upto (n : nat) (r : string) :
  (n <= String.length r)%nat -> String.length (Str.upto n r) = n.
Proof.
  revert r. induction n as [|n IH]; intros r H; [reflexivity|].
  destruct r as [|c r]; simpl in *; [lia|]. rewrite IH; lia.
Qed.

Lemma ended_size_app (I J : list string) :
  ended_size (I ++ J) = (ended_size I + ended_size J)%nat.
Proof. induction I as [|p I IH]; simpl; [reflexivity | rewrite IH; lia]. Qed.

(** Every piece but the last stands for its bytes and a newline. *)
Lemma length_plist (s : string) : ended_size (plist s) = S (String.length s).
Proof.
  induction s as [|c s IH]; [reflexivity|].
  rewrite ParseMore.plist_cons. destruct (Ascii.eqb c "010").
  - simpl. now rewrite IH.
  - destruct (plist s) as [|x xs]; [now destruct (ParseMore.plist_not_nil s)|].
    simpl in *. lia.
Qed.

(** The loop over [xs ++ ys] is the loop over [xs], then over [ys]. *)
Lemma parseLoop_app (total : nat) (xs ys : list scan) :
  forall out,
    parseLoop total (xs ++ ys) out
    = match loop_over xs out with
      | inl out' => parseLoop total ys out'
      | inr (Ok keys, pos) => (Ok keys, pos)
      | inr (Err e, _) => (Err e, total)
      end.
Proof.
  induction xs as [|x xs IH]; intros out; [reflexivity|].
  destruct x as [line stop|]; simpl; [|reflexivity].
  destruct (_ =? 10); [reflexivity|].
  destruct (Str.HasPrefix line "ssh-"); apply IH.
Qed.

(** The offset the loop reports is the end of the input or the end of a
    token. *)
Lemma parseLoop_pos (total : nat) (sc : list scan) :
  forall out keys pos,
    parseLoop total sc out = (Ok keys, pos) ->
    pos = total \/ exists text, In (Token text pos) sc.
Proof.
  induction sc as [|x sc IH]; intros out keys pos E; simpl in E.
  - injection E as _ <-. now left.
  - destruct x as [line stop|]; [|discriminate].
    destruct (_ =? 10).
    + injection E as _ <-. right. exists line. now left.
    + assert (H : pos = total \/ exists text, In (Token text pos) sc)
        by (destruct (Str.HasPrefix line "ssh-"); eapply IH; exact E).
      destruct H as [H|[text H]]; [now left | right; exists text; now right].
Qed.

Lemma In_scan_of (text raw : string) (pos stop : nat) :
  Token text pos = scan_of raw stop -> pos = stop.
Proof. unfold scan_of. destruct (_ <=? _); [discriminate | now intros [= _ ->]]. Qed.

(** A token ends after the start of its piece; only a last piece without
    newline ends exactly where the piece does. *)
Lemma scans_stop (ps : list string) :
  forall off p rest text stop,
    ps = p :: rest -> In (Token text stop) (scans off ps) ->
    (rest = [] /\ stop = (off + String.length p)%nat)
    \/ (off + String.length p < stop)%nat.
Proof.
  induction ps as [|p0 ps IH]; intros off p rest text stop E Hin; [discriminate|].
  injection E as -> ->. destruct rest as [|q rest].
  - simpl in Hin. destruct p; [destruct Hin|].
    destruct Hin as [Hin|[]]. symmetry in Hin. apply In_scan_of in Hin. now left.
  - change (scans off (p :: q :: rest))
      with (scan_of p (off + String.length p + 1)
              :: scans (off + String.length p + 1) (q :: rest)) in Hin.
    right. destruct Hin as [Hin|Hin].
    + symmetry in Hin. apply In_scan_of in Hin. lia.
    + destruct (IH (off + String.length p + 1)%nat q rest text stop eq_refl Hin)
        as [[_ ->]|H]; lia.
Qed.

(** Parsing again the bytes the scanner had read gives the same keys. *)
Lemma parse_prefix (r : string) (ahead n : nat) (keys : list string) :
  parseReaderToKeys r ahead = (Ok keys, n) ->
  fst (parseReaderToKeys (Str.upto n r) 0) = Ok keys.
Proof.
  unfold parseReaderToKeys at 1. unfold NewScanner. rewrite ParseMore.plist_eq.
  destruct (parseLoop _ _ _) as [res pos] eqn:E. intros [= -> <-].
  destruct (Nat.le_gt_cases (String.length r) (pos + ahead)) as [Hall|Hcut].
  { rewrite Nat.min_l by exact Hall. rewrite upto_all.
    unfold parseReaderToKeys, NewScanner. rewrite ParseMore.plist_eq, E. reflexivity. }
  rewrite Nat.min_r by lia.
  set (n := (pos + ahead)%nat) in *.
  set (a := Str.upto n r). set (b := Str.from n r).
  assert (Hr : r = a +:+ b) by apply upto_from.
  assert (Hlen : String.length a = n) by (apply length_upto; lia).
  destruct (exists_last (ParseMore.plist_not_nil a)) as (I & la & Ea).
  pose proof (ScanFacts.plist_app a b I la Ea) as Eab. rewrite <- Hr in Eab.
  pose proof (length_plist a) as Sa. rewrite Ea, ended_size_app in Sa. simpl in Sa.
  pose proof (length_plist b) as Sb.
  pose proof (ParseMore.plist_not_nil b) as Hb.
  destruct (plist b) as [|hb tb] eqn:Eb; [now destruct Hb|]. simpl in Eab.
  assert (Hd : forall l : list string, l <> [] -> hd EmptyString l :: tl l = l)
    by (intros [|? ?] Hl; [now destruct Hl | reflexivity]).
  rewrite (Hd _ (ParseMore.plist_not_nil r)), Eab in E.
  rewrite (ScanFacts.scans_app I ((la +:+ hb) :: tb) ltac:(discriminate)),
    parseLoop_app in E.
  unfold parseReaderToKeys, NewScanner.
  rewrite ParseMore.plist_eq, (Hd _ (ParseMore.plist_not_nil a)), Ea.
  rewrite (ScanFacts.scans_app I [la] ltac:(discriminate)), parseLoop_app.
  destruct (loop_over (ended_scans 0 I) []) as [out'|[[k|e] p]].
  - exfalso. apply parseLoop_pos in E as [E|[text E]].
    + lia.
    + apply (scans_stop _ _ _ _ _ _ eq_refl) in E.
      rewrite ScanFacts.length_append in E.
      assert (Hrlen : String.length r = (n + String.length b)%nat)
        by (rewrite Hr at 1; rewrite ScanFacts.length_append; lia).
      destruct E as [[-> E]|E]; simpl in Sb; lia.
  - injection E as -> ->. reflexivity.
  - discriminate.
Qed.

End PrefixFacts.

(** ** Steps of the cache *)

Section CacheSteps.

Variable sha1_hex : string -> string.
Variable Join : string -> string -> string.

(** [get] leaves the files and the rest of the world alone. *)
Lemma cacheDir_get_keeps (c key : string) (w : World) :
  files (snd (cacheDir_get sha1_hex Join c key w)) = files w
  /\ More.env_of (snd (cacheDir_get sha1_hex Join c key w)) = More.env_of w.
Proof.
  unfold cacheDir_get, os_Stat, ioutil_ReadFile.
  destruct (String.eqb c EmptyString); [auto|].
  destruct (files w !! _); [|auto].
  destruct (stat_fault w _); [auto|].
  destruct (_ <? _); [auto|]. simpl.
  destruct (files w !! _); [|auto].
  destruct (read_fault w _); auto.
Qed.

(** A fresh entry that can be read is returned after one [Stat] and one
    [ReadFile]. *)
Lemma cacheDir_get_hit (c key : string) (w : World) (f : File) :
  c <> EmptyString ->
  files w !! Join c (sha1_hex key) = Some f ->
  stat_fault w (Join c (sha1_hex key)) = None ->
  read_fault w (Join c (sha1_hex key)) = None ->
  now w - f_mtime f <= Hour ->
  cacheDir_get sha1_hex Join c key w
  = (Ok (f_data f),
     record (EvReadFile (Join c (sha1_hex key))) (record (EvStat (Join c (sha1_hex key))) w)).
Proof.
  intros Hc Ef Es Er Hage. apply String.eqb_neq in Hc.
  unfold cacheDir_get, os_Stat. rewrite Hc, Ef, Es. simpl.
  destruct (Z.ltb_spec (f_mtime f + Hour) (now w)); [lia|].
  unfold ioutil_ReadFile. simpl. now rewrite Ef, Er.
Qed.

(** [put] changes at most the file of the handle, and no file when it
    fails. *)
Lemma cacheDir_put_keeps (c key data : string) (w : World) :
  (forall name, name <> Join c (sha1_hex key) ->
                files (snd (cacheDir_put sha1_hex Join c key data w)) !! name
                = files w !! name)
  /\ (fst (cacheDir_put sha1_hex Join c key data w) <> None ->
      files (snd (cacheDir_put sha1_hex Join c key data w)) = files w)
  /\ More.env_of (snd (cacheDir_put sha1_hex Join c key data w)) = More.env_of w.
Proof.
  unfold cacheDir_put, os_MkdirAll, ioutil_WriteFile.
  destruct (String.eqb c EmptyString); [simpl; tauto|].
  destruct (mkdir_fault w c); [simpl; auto|]. simpl.
  destruct (write_fault w _); simpl; [auto|].
  split; [|split; [congruence | reflexivity]].
  intros name Hn. now rewrite lookup_insert_ne.
Qed.

(** A [put] that meets no fault writes the file, dated now. *)
Lemma cacheDir_put_ok (c key data : string) (w : World) :
  c <> EmptyString ->
  mkdir_fault w c = None ->
  write_fault w (Join c (sha1_hex key)) = None ->
  cacheDir_put sha1_hex Join c key data w
  = (None,
     with_files (<[Join c (sha1_hex key) := mkFile (now w) data]> (files w))
       (record (EvWriteFile (Join c (sha1_hex key)) data) (record (EvMkdirAll c) w))).
Proof.
  intros Hc Hmk Hwr. apply String.eqb_neq in Hc.
  unfold cacheDir_put, os_MkdirAll, ioutil_WriteFile. rewrite Hc, Hmk.
  cbn [mkdir_fault write_fault record now files]. now rewrite Hwr.
Qed.

End CacheSteps.

(** ** More on key resolution *)

Section FetchFacts.

Variable sha1_hex : string -> string.
Variable Join : string -> string -> string.
Variable Quote : string -> string.

(** The steps of a resolution that misses the cache. *)
Lemma fetchGithubKeys_miss (h cache : string) (w w1 : World) (e : error) :
  validGithubHandle h = true ->
  cacheDir_get sha1_hex Join cache h w = (Err e, w1) ->
  fetchGithubKeys sha1_hex Join Quote h cache w
  = let w2 := record (EvHTTPGet (More.keys_url h) "github.com/artyom/age-github") w1 in
    match http w (More.keys_url h) with
    | Err e' => (Err e', w2)
    | Ok resp =>
        if negb (StatusCode resp =? 200) then
          (Err ("unexpected response code " +:+ Quote (Status resp)), w2)
        else if negb (Str.HasPrefix (ContentType resp) "text/plain") then
          (Err ("unexpected content type " +:+ Quote (ContentType resp)), w2)
        else
          match parseReaderToKeys (More.limited (Body resp)) (readahead w) with
          | (Err e', _) => (Err e', w2)
          | (Ok keys, n) =>
              (Ok keys,
               snd (cacheDir_put sha1_hex Join cache h
                      (Str.upto n (More.limited (Body resp))) w2))
          end
    end.
Proof.
  intros Hv G. unfold fetchGithubKeys, More.limited. rewrite Hv, G.
  cbn [negb]. cbv iota.
  pose proof (cacheDir_get_keeps sha1_hex Join cache h w) as [_ Env]. rewrite G in Env.
  cbn [snd] in Env. unfold More.env_of in Env.
  injection Env as _ _ _ _ _ Hhttp Hahead _ _ _ _.
  unfold http_Do, More.keys_url. rewrite Hhttp. cbn [readahead record]. rewrite Hahead.
  destruct (http w _) as [resp|e']; [|reflexivity].
  destruct (negb (StatusCode resp =? 200)); [reflexivity|].
  destruct (negb (Str.HasPrefix (ContentType resp) "text/plain")); [reflexivity|].
  cbv zeta.
  destruct (parseReaderToKeys (Str.upto (Z.to_nat (Z.shiftl 1 18)) (Body resp)) (readahead w))
    as [[keys|e'] n]; [|reflexivity].
  now destruct (cacheDir_put _ _ _ _ _ _).
Qed.

#[local] Opaque More.limited.

Lemma fetch_clean (h cache : string) (w w' : World) (keys : list string) :
  fetchGithubKeys sha1_hex Join Quote h cache w = (Ok keys, w') ->
  (length keys <= 10)%nat /\ Forall More.clean_key keys.
Proof.
  intros H. destruct (validGithubHandle h) eqn:Hv.
  2:{ unfold fetchGithubKeys in H. rewrite Hv in H. discriminate. }
  destruct (cacheDir_get sha1_hex Join cache h w) as [[data|e] w1] eqn:G.
  - unfold fetchGithubKeys in H. rewrite Hv, G in H. simpl in H.
    injection H as H _. now apply ParseMore.parse_clean in H.
  - rewrite (fetchGithubKeys_miss h cache w w1 e Hv G) in H. cbv zeta in H.
    destruct (http w _) as [resp|e']; [|discriminate].
    destruct (negb (StatusCode resp =? 200)); [discriminate|].
    destruct (negb (Str.HasPrefix (ContentType resp) "text/plain")); [discriminate|].
    destruct (parseReaderToKeys (More.limited (Body resp)) (readahead w))
      as [[keys'|e'] n] eqn:P; [|discriminate].
    injection H as -> _.
    apply (ParseMore.parse_clean (More.limited (Body resp)) (readahead w)). now rewrite P.
Qed.

(** A resolution that finds a fresh, readable entry. *)
Lemma fetch_hit (h cache : string) (w : World) (f : File) :
  validGithubHandle h = true ->
  cache <> EmptyString ->
  files w !! Join cache (sha1_hex h) = Some f ->
  stat_fault w (Join cache (sha1_hex h)) = None ->
  read_fault w (Join cache (sha1_hex h)) = None ->
  now w - f_mtime f <= Hour ->
  fetchGithubKeys sha1_hex Join Quote h cache w
  = (fst (parseReaderToKeys (f_data f) 0),
     record (EvReadFile (Join cache (sha1_hex h)))
       (record (EvStat (Join cache (sha1_hex h))) w)).
Proof.
  intros Hv Hc Ef Es Er Hage. unfold fetchGithubKeys.
  now rewrite Hv, (cacheDir_get_hit sha1_hex Join cache h w f Hc Ef Es Er Hage).
Qed.

(** X3. A cache hit does not go to the network: for a valid handle with
    a fresh, readable cache entry, the keys are parsed from the entry, and
    all that happens to the world is one [Stat] and one [ReadFile] of the
    cache file. *)
Theorem fetchGithubKeys_cache_hit (h cache : string) (w : World) (f : File) :
  validGithubHandle h = true ->
  cache <> EmptyString ->
  files w !! Join cache (sha1_hex h) = Some f ->
  stat_fault w (Join cache (sha1_hex h)) = None ->
  read_fault w (Join cache (sha1_hex h)) = None ->
  now w - f_mtime f <= Hour ->
  fetchGithubKeys sha1_hex Join Quote h cache w
  = (fst (parseReaderToKeys (f_data f) 0),
     record (EvReadFile (Join cache (sha1_hex h)))
       (record (EvStat (Join cache (sha1_hex h))) w)).
Proof. apply fetch_hit. Qed.

(** X4. After a resolution that missed the cache, got its keys from the
    network and could write the cache file, a second resolution of the
    same handle within one hour returns the same keys from the cache: it
    only stats and reads the cache file, and sends no request. *)
Theorem fetchGithubKeys_again (h cache : string) (w w' : World) (keys : list string)
    (d : Z) :
  cache <> EmptyString ->
  is_ok (fst (cacheDir_get sha1_hex Join cache h w)) = false ->
  fetchGithubKeys sha1_hex Join Quote h cache w = (Ok keys, w') ->
  mkdir_fault w cache = None ->
  write_fault w (Join cache (sha1_hex h)) = None ->
  stat_fault w (Join cache (sha1_hex h)) = None ->
  read_fault w (Join cache (sha1_hex h)) = None ->
  d <= Hour ->
  fst (fetchGithubKeys sha1_hex Join Quote h cache (later d w')) = Ok keys
  /\ trace (snd (fetchGithubKeys sha1_hex Join Quote h cache (later d w')))
     = (trace w' ++ [EvStat (Join cache (sha1_hex h)); EvReadFile (Join cache (sha1_hex h))])%list.
Proof.
  intros Hc Hmiss Hfetch Hmk Hwr Hst Hrd Hd.
  assert (Hv : validGithubHandle h = true).
  { unfold fetchGithubKeys in Hfetch. destruct (validGithubHandle h); [reflexivity|discriminate]. }
  pose proof (cacheDir_get_keeps sha1_hex Join cache h w) as [_ Env].
  destruct (cacheDir_get sha1_hex Join cache h w) as [[data|e] w1] eqn:G; [discriminate|].
  cbn [snd] in Env. unfold More.env_of in Env.
  injection Env as Hnow Hsf Hrf Hmf Hwf _ _ _ _ _ _.
  rewrite (fetchGithubKeys_miss h cache w w1 e Hv G) in Hfetch. cbv zeta in Hfetch.
  destruct (http w _) as [resp|e']; [|discriminate].
  destruct (negb (StatusCode resp =? 200)); [discriminate|].
  destruct (negb (Str.HasPrefix (ContentType resp) "text/plain")); [discriminate|].
  destruct (parseReaderToKeys (More.limited (Body resp)) (readahead w))
    as [[keys'|e'] n] eqn:P; [|discriminate].
  injection Hfetch as -> <-.
  apply PrefixFacts.parse_prefix in P.
  remember (Str.upto n (More.limited (Body resp))) as buf eqn:Ebuf.
  clear Ebuf.
  rewrite (cacheDir_put_ok sha1_hex Join cache h buf _ Hc);
    [|cbn [mkdir_fault record]; now rewrite Hmf
     |cbn [write_fault record]; now rewrite Hwf].
  cbn [snd].
  rewrite (fetch_hit h cache _ (mkFile (now w1) buf) Hv Hc).
  - cbn [fst snd trace record later with_files]. split; [exact P|].
    now rewrite <- !app_assoc.
  - cbn [files later with_files now record]. apply lookup_insert_eq.
  - cbn [stat_fault later with_files record]. now rewrite Hsf.
  - cbn [read_fault later with_files record]. now rewrite Hrf.
  - cbn [now later with_files record f_mtime]. lia.
Qed.

(** X5. A resolution changes at most the cache file of its handle, and
    a resolution that fails changes no file at all. *)
Theorem fetchGithubKeys_files (h cache : string) (w : World) :
  (forall name, name <> Join cache (sha1_hex h) ->
                files (snd (fetchGithubKeys sha1_hex Join Quote h cache w)) !! name
                = files w !! name)
  /\ (forall e, fst (fetchGithubKeys sha1_hex Join Quote h cache w) = Err e ->
                files (snd (fetchGithubKeys sha1_hex Join Quote h cache w)) = files w).
Proof.
  destruct (validGithubHandle h) eqn:Hv.
  2:{ unfold fetchGithubKeys. rewrite Hv. simpl. auto. }
  pose proof (cacheDir_get_keeps sha1_hex Join cache h w) as [Hf _].
  destruct (cacheDir_get sha1_hex Join cache h w) as [[data|e] w1] eqn:G; simpl in Hf.
  { unfold fetchGithubKeys. rewrite Hv, G. simpl. rewrite Hf. auto. }
  rewrite (fetchGithubKeys_miss h cache w w1 e Hv G). cbv zeta.
  destruct (http w _) as [resp|e']; [|simpl; rewrite Hf; auto].
  destruct (negb (StatusCode resp =? 200)); [simpl; rewrite Hf; auto|].
  destruct (negb (Str.HasPrefix (ContentType resp) "text/plain")); [simpl; rewrite Hf; auto|].
  destruct (parseReaderToKeys (More.limited (Body resp)) (readahead w))
    as [[keys|e'] n]; [|simpl; rewrite Hf; auto].
  remember (Str.upto n (More.limited (Body resp))) as buf eqn:Ebuf.
  clear Ebuf. cbn [fst snd]. split; [|discriminate].
  intros name Hn.
  destruct (cacheDir_put_keeps sha1_hex Join cache h buf
              (record (EvHTTPGet (More.keys_url h) "github.com/artyom/age-github") w1))
    as [Hput _].
  rewrite (Hput name Hn). cbn [files record]. now rewrite Hf.
Qed.

(** X6. Without a cache directory every resolution of a valid handle
    goes to the network, and the request is all that happens: no file is
    looked at or written. *)
Theorem fetchGithubKeys_no_cache (h : string) (w : World) :
  validGithubHandle h = true ->
  snd (fetchGithubKeys sha1_hex Join Quote h EmptyString w)
  = record (EvHTTPGet (More.keys_url h) "github.com/artyom/age-github") w.
Proof.
  intros Hv.
  rewrite (fetchGithubKeys_miss h EmptyString w w ErrNotExist Hv eq_refl). cbv zeta.
  destruct (http w _) as [resp|e']; [|reflexivity].
  destruct (negb (StatusCode resp =? 200)); [reflexivity|].
  destruct (negb (Str.HasPrefix (ContentType resp) "text/plain")); [reflexivity|].
  destruct (parseReaderToKeys (More.limited (Body resp)) (readahead w))
    as [[keys|e'] n]; reflexivity.
Qed.

(** X7. On a cache miss the answer of the server is checked before its
    body is read: a transport error is returned as it is, a status other
    than 200 gives [unexpected response code %q] with the status text, and
    a content type that does not begin with [text/plain] gives
    [unexpected content type %q]. *)
Theorem fetchGithubKeys_bad_response (h cache : string) (w : World) :
  validGithubHandle h = true ->
  is_ok (fst (cacheDir_get sha1_hex Join cache h w)) = false ->
  (forall e, http w (More.keys_url h) = Err e ->
             fst (fetchGithubKeys sha1_hex Join Quote h cache w) = Err e)
  /\ (forall resp, http w (More.keys_url h) = Ok resp -> StatusCode resp <> 200 ->
        fst (fetchGithubKeys sha1_hex Join Quote h cache w)
        = Err ("unexpected response code " +:+ Quote (Status resp)))
  /\ (forall resp, http w (More.keys_url h) = Ok resp -> StatusCode resp = 200 ->
        Str.HasPrefix (ContentType resp) "text/plain" = false ->
        fst (fetchGithubKeys sha1_hex Join Quote h cache w)
        = Err ("unexpected content type " +:+ Quote (ContentType resp))).
Proof.
  intros Hv Hmiss.
  destruct (cacheDir_get sha1_hex Join cache h w) as [[data|e] w1] eqn:G; [discriminate|].
  rewrite (fetchGithubKeys_miss h cache w w1 e Hv G). cbv zeta.
  split; [|split].
  - intros e' ->. reflexivity.
  - intros resp -> Hs. apply Z.eqb_neq in Hs. now rewrite Hs.
  - intros resp -> Hs Hct. apply Z.eqb_eq in Hs. now rewrite Hs, Hct.
Qed.

(** X8. The keys a resolution returns are at most ten, each begins with
    [ssh-] and none contains a newline, whether they come from the cache or
    from the network. *)
Theorem fetchGithubKeys_keys (h cache : string) (w w' : World) (keys : list string) :
  fetchGithubKeys sha1_hex Join Quote h cache w = (Ok keys, w') ->
  (length keys <= 10)%nat /\ Forall More.clean_key keys.
Proof. apply fetch_clean. Qed.

End FetchFacts.

Lemma fetchGithubKeys_cache_hit_witness :
  fst (fetchGithubKeys Sample.sha1_hex Sample.Join Sample.Quote "alice" Sample.cache
         (snd (cacheDir_put Sample.sha1_hex Sample.Join Sample.cache "alice"
                 Sample.alice_keys Sample.world)))
  = Ok ["ssh-ed25519 AAA"; "ssh-rsa BBB"].
Proof.
  rewrite (fetchGithubKeys_cache_hit Sample.sha1_hex Sample.Join Sample.Quote "alice"
             Sample.cache _ (mkFile 1700000000000000000 Sample.alice_keys)).
  - vm_compute. reflexivity.
  - reflexivity.
  - discriminate.
  - vm_compute. reflexivity.
  - reflexivity.
  - reflexivity.
  - vm_compute. discriminate.
Defined.

Lemma fetchGithubKeys_again_witness :
  fst (fetchGithubKeys Sample.sha1_hex Sample.Join Sample.Quote "alice" Sample.cache
         (later 1800000000000
            (snd (fetchGithubKeys Sample.sha1_hex Sample.Join Sample.Quote "alice"
                    Sample.cache Sample.world))))
  = Ok ["ssh-ed25519 AAA"; "ssh-rsa BBB"].
Proof.
  destruct (fetchGithubKeys_again Sample.sha1_hex Sample.Join Sample.Quote "alice"
              Sample.cache Sample.world
              (snd (fetchGithubKeys Sample.sha1_hex Sample.Join Sample.Quote "alice"
                      Sample.cache Sample.world))
              ["ssh-ed25519 AAA"; "ssh-rsa BBB"] 1800000000000) as [H _].
  - discriminate.
  - vm_compute. reflexivity.
  - vm_compute. reflexivity.
  - reflexivity.
  - reflexivity.
  - reflexivity.
  - reflexivity.
  - vm_compute. discriminate.
  - exact H.
Defined.

Lemma fetchGithubKeys_no_cache_witness :
  snd (fetchGithubKeys Sample.sha1_hex Sample.Join Sample.Quote "alice" EmptyString
         Sample.world)
  = record (EvHTTPGet "https://github.com/alice.keys" "github.com/artyom/age-github")
      Sample.world.
Proof.
  apply (fetchGithubKeys_no_cache Sample.sha1_hex Sample.Join Sample.Quote "alice").
  reflexivity.
Defined.

Lemma fetchGithubKeys_bad_response_witness :
  fst (fetchGithubKeys Sample.sha1_hex Sample.Join Sample.Quote "bob" Sample.cache
         Sample.world)
  = Err ("unexpected response code " +:+ Sample.Quote "404 Not Found").
Proof.
  destruct (fetchGithubKeys_bad_response Sample.sha1_hex Sample.Join Sample.Quote "bob"
              Sample.cache Sample.world) as (_ & H & _).
  - reflexivity.
  - vm_compute. reflexivity.
  - apply (H (mkResponse 404 "404 Not Found" "text/plain; charset=utf-8" "Not Found"));
      [reflexivity | discriminate].
Defined.

Lemma fetchGithubKeys_keys_witness :
  (length ["ssh-ed25519 AAA"; "ssh-rsa BBB"] <= 10)%nat
  /\ Forall More.clean_key ["ssh-ed25519 AAA"; "ssh-rsa BBB"].
Proof.
  apply (fetchGithubKeys_keys Sample.sha1_hex Sample.Join Sample.Quote "alice" Sample.cache
           Sample.world
           (snd (fetchGithubKeys Sample.sha1_hex Sample.Join Sample.Quote "alice"
                   Sample.cache Sample.world))).
  vm_compute. reflexivity.
Defined.

(** ** More on the rewriter and the program *)

Module OnlyFacts.
Import Words More.

Lemma only_refl (P : Event -> Prop) (w : World) : only P w w.
Proof. exists []. split; [unfold did; now rewrite app_nil_r | constructor]. Qed.

Lemma only_trans (P : Event -> Prop) (w1 w2 w3 : World) :
  only P w1 w2 -> only P w2 w3 -> only P w1 w3.
Proof.
  intros (e1 & H1 & F1) (e2 & H2 & F2). exists (e1 ++ e2)%list. unfold did in *.
  split; [now rewrite H2, H1, app_assoc | now apply Forall_app].
Qed.

Lemma only_record (P : Event -> Prop) (w w1 : World) (e : Event) :
  only P w w1 -> P e -> only P w (record e w1).
Proof.
  intros (evs & H & F) He. exists (evs ++ [e])%list. unfold did in *. simpl.
  split; [now rewrite H, app_assoc | apply Forall_app; split; [assumption | now constructor]].
Qed.

Lemma only_with_files (P : Event -> Prop) (w w1 : World) (fs : gmap string File) :
  only P w w1 -> only P w (with_files fs w1).
Proof. intros (evs & H & F). exists evs. split; assumption. Qed.

(** [F=@handle] as [run] tests it is [F=@handle] as the specification
    words it. *)
Lemma is_attached_placeholder_spec (v : string) :
  is_attached_placeholder v = true -> attached_placeholder v.
Proof.
  unfold is_attached_placeholder. intros H.
  apply andb_prop in H as [H HV]. apply andb_prop in H as [Hj HF].
  apply Z.ltb_lt in Hj. apply isRecipientFlag_In in HF.
  exists (Str.upto (Z.to_nat (Str.IndexByte v "=")) v),
         (Str.from (Z.to_nat (Str.IndexByte v "=" + 1)) v).
  split; [split|assumption]; [|assumption].
  apply StrFacts.IndexByte_split. lia.
Qed.

End OnlyFacts.

Section RunMore.

Variable sha1_hex : string -> string.
Variable Join : string -> string -> string.
Variable Quote : string -> string.

Lemma substitute_err (cache h : string) (tokens : string -> list string)
    (ageArgs : list string) (w w1 : World) (err : error) :
  fetchGithubKeys sha1_hex Join Quote h cache w = (Err err, w1) ->
  substitute sha1_hex Join Quote cache h tokens ageArgs w
  = (Err ("fetching keys for github user " +:+ Quote h +:+ ": " +:+ err), w1).
Proof. unfold substitute. now intros ->. Qed.

(** The number of tokens the loop body appends. *)
Lemma rewriteArg_length (args : list string) (cache : string) (i : nat) (v : string)
    (ageArgs out : list string) (w w' : World) :
  rewriteArg sha1_hex Join Quote args cache i v ageArgs w = (Ok out, w') ->
  length out
  = (length ageArgs + if More.is_attached_placeholder v then 2 else 1)%nat.
Proof.
  intros E.
  destruct (rewriteArg_cases sha1_hex Join Quote args cache i v ageArgs w)
    as [[Hp R]|[(Hp & F & V & [-> HF] & HV & R)|[Hp R]]]; rewrite R in E.
  - apply substitute_ok in E as (key0 & keys & _ & ->).
    destruct (More.is_attached_placeholder v) eqn:Ha.
    + apply OnlyFacts.is_attached_placeholder_spec in Ha.
      destruct (at_not_attached v (proj1 Hp) Ha).
    + rewrite length_app. reflexivity.
  - apply substitute_ok in E as (key0 & keys & _ & ->).
    assert (Ha : More.is_attached_placeholder (F +:+ "=" +:+ V) = true).
    { unfold More.is_attached_placeholder.
      assert (E2 : Str.IndexByte (F +:+ "=" +:+ V) "=" = Str.len F).
      { apply StrFacts.IndexByte_append.
        simpl in HF. destruct HF as [<-|[<-|[<-|[<-|[]]]]]; reflexivity. }
      assert (E3 : (0 <? Str.len F) = true).
      { simpl in HF. destruct HF as [<-|[<-|[<-|[<-|[]]]]]; reflexivity. }
      rewrite E2, E3, StrFacts.upto_len.
      change ("=" +:+ V) with (String "=" V). rewrite (StrFacts.from_after F V "="), HV.
      apply isRecipientFlag_In in HF. now rewrite HF. }
    rewrite Ha, length_app. reflexivity.
  - injection E as <- <-.
    destruct (More.is_attached_placeholder v) eqn:Ha; [|rewrite length_app; reflexivity].
    exfalso. revert R. unfold rewriteArg.
    destruct (Str.HasPrefix v "@" && (0 <? Z.of_nat i)
              && isRecipientFlag (default EmptyString (args !! (i - 1)%nat))) eqn:G.
    { destruct Hp. now apply guard_placeholder. }
    unfold More.is_attached_placeholder in Ha. apply andb_prop in Ha as [Ha1 Ha2].
    rewrite Ha1, Ha2. simpl negb. cbv iota.
    destruct (fetchGithubKeys _ _ _ _ _ _) as [[[|k ks]|e] w1]; intros R;
      try discriminate.
    injection R as R _. apply (f_equal (@length string)) in R.
    rewrite !length_app in R. simpl in R. lia.
Qed.

Lemma rewriteFrom_length_from (args : list string) (cache : string) (rest : list string) :
  forall i ageArgs w out w',
    rewriteFrom sha1_hex Join Quote args cache i rest ageArgs w = (Ok out, w') ->
    length out
    = (length ageArgs + length rest
       + length (List.filter More.is_attached_placeholder rest))%nat.
Proof.
  induction rest as [|v rest IH]; intros i ageArgs w out w' E; simpl in E.
  - injection E as <- _. simpl. lia.
  - destruct (rewriteArg _ _ _ args cache i v ageArgs w) as [[acc|e] w1] eqn:Ev;
      [|discriminate].
    apply rewriteArg_length in Ev. apply IH in E. rewrite E, Ev. simpl.
    destruct (More.is_attached_placeholder v); simpl; lia.
Qed.

(** What the loop appends: arguments, [-r], and keys. *)
Lemma rewriteFrom_tokens_from (args : list string) (cache : string) (rest : list string) :
  forall i ageArgs w out w',
    rewriteFrom sha1_hex Join Quote args cache i rest ageArgs w = (Ok out, w') ->
    exists toks,
      out = (ageArgs ++ toks)%list
      /\ Forall (fun t => In t rest \/ t = "-r" \/ More.clean_key t) toks.
Proof.
  induction rest as [|v rest IH]; intros i ageArgs w out w' E; simpl in E.
  - injection E as <- _. exists []. rewrite app_nil_r. split; [reflexivity | constructor].
  - destruct (rewriteArg _ _ _ args cache i v ageArgs w) as [[acc|e] w1] eqn:Ev;
      [|discriminate].
    apply IH in E as (toks & -> & Htoks).
    assert (Hrest : Forall (fun t => In t (v :: rest) \/ t = "-r" \/ More.clean_key t) toks).
    { eapply Forall_impl; [exact Htoks|]. intros t [H|H]; [left; now right | now right]. }
    assert (Hkey : forall h k ks w0 w2,
               fetchGithubKeys sha1_hex Join Quote h cache w0 = (Ok (k :: ks), w2) ->
               More.clean_key k).
    { intros h k ks w0 w2 H. apply fetch_clean in H as [_ H]. now inversion H. }
    destruct (rewriteArg_cases sha1_hex Join Quote args cache i v ageArgs w)
      as [[_ R]|[(_ & F & V & _ & _ & R)|[_ R]]]; rewrite R in Ev.
    + apply substitute_ok in Ev as (k & ks & Hf & ->).
      exists (k :: toks). rewrite <- app_assoc. split; [reflexivity|].
      constructor; [right; right; eapply Hkey; exact Hf | exact Hrest].
    + apply substitute_ok in Ev as (k & ks & Hf & ->).
      exists ("-r" :: k :: toks). rewrite <- app_assoc. split; [reflexivity|].
      constructor; [right; now left|].
      constructor; [right; right; eapply Hkey; exact Hf | exact Hrest].
    + injection Ev as <- <-.
      exists (v :: toks). rewrite <- app_assoc. split; [reflexivity|].
      constructor; [left; now left | exact Hrest].
Qed.

(** X9. Any error of a resolution aborts [run]: the error is returned
    with the handle in front ([fetching keys for github user %q: ...]),
    [main] exits with status 1, and [syscall.Exec] is not called.  So does
    a handle that is not valid, in either form of placeholder. *)
Theorem resolution_error_aborts (args pre post : list string) (v h ageBin : string)
    (w wi wf : World) (ageArgs : list string) (err : error) :
  args = (pre ++ v :: post)%list ->
  path_lookup w "age" = Ok ageBin ->
  let cache := cacheOf Join (user_cache_dir w) in
  rewriteFrom sha1_hex Join Quote args cache 0 pre [ageBin]
    (record EvUserCacheDir (record (EvLookPath "age") w)) = (Ok ageArgs, wi) ->
  (Words.placeholder args (length pre) v /\ h = Str.from 1 v
   \/ exists F V, Words.attached v F V /\ Str.HasPrefix V "@" = true /\ h = Str.from 1 V) ->
  fetchGithubKeys sha1_hex Join Quote h cache wi = (Err err, wf) ->
  run sha1_hex Join Quote args w
  = (Returned ("fetching keys for github user " +:+ Quote h +:+ ": " +:+ err), wf)
  /\ (forall prog,
        main sha1_hex Join Quote (prog :: args) w
        = (Exited 1 (("fetching keys for github user " +:+ Quote h +:+ ": " +:+ err) +:+ nl),
           wf))
  /\ Words.no_exec w wf.
Proof.
  intros Hargs Hbin cache Hpre Hform Hfetch.
  assert (Hne : args <> []) by (rewrite Hargs; now destruct pre).
  assert (Hstep : rewriteArg sha1_hex Join Quote args cache (length pre) v ageArgs wi
                  = (Err ("fetching keys for github user " +:+ Quote h +:+ ": " +:+ err),
                     wf)).
  { destruct Hform as [[Hp ->]|(F & V & [-> HF] & HV & ->)].
    - rewrite (rewriteArg_placeholder sha1_hex Join Quote _ _ _ _ _ _ Hp).
      now apply substitute_err.
    - rewrite (rewriteArg_attached sha1_hex Join Quote _ _ _ _ _ _ _ HF), HV.
      now apply substitute_err. }
  assert (Hrun : run sha1_hex Join Quote args w
                 = (Returned ("fetching keys for github user " +:+ Quote h +:+ ": " +:+ err),
                    wf)).
  { rewrite (run_unfold sha1_hex Join Quote args w ageBin Hne Hbin). fold cache.
    rewrite Hargs at 2. rewrite rewriteFrom_app, Hpre. simpl. now rewrite Hstep. }
  split; [exact Hrun|]. split.
  - intros prog. unfold main. change (drop 1 (prog :: args)) with args. now rewrite Hrun.
  - pose proof (rewriteFrom_no_exec sha1_hex Join Quote args cache pre 0 [ageBin]
                  (record EvUserCacheDir (record (EvLookPath "age") w))) as H1.
    rewrite Hpre in H1. simpl in H1.
    pose proof (fetchGithubKeys_no_exec sha1_hex Join Quote h cache wi) as H2.
    rewrite Hfetch in H2. simpl in H2.
    eapply TraceFacts.no_exec_trans; [|exact H2].
    eapply TraceFacts.no_exec_trans; [|exact H1]. auto with quiet.
Qed.

(** X10. A rewrite that succeeds yields one token for the binary, one
    for each argument, and one more for each [F=@handle] argument. *)
Theorem rewrite_length (args : list string) (cache ageBin : string) (w w' : World)
    (out : list string) :
  rewriteFrom sha1_hex Join Quote args cache 0 args [ageBin] w = (Ok out, w') ->
  length out
  = (1 + length args + length (List.filter More.is_attached_placeholder args))%nat.
Proof. intros E. apply rewriteFrom_length_from in E. exact E. Qed.

(** X11. A rewrite that succeeds hands [age] nothing of its own making
    but keys: after the path of the binary, every token is one of the
    arguments, or [-r], or a key that begins with [ssh-] and has no
    newline. *)
Theorem rewrite_tokens (args : list string) (cache ageBin : string) (w w' : World)
    (out : list string) :
  rewriteFrom sha1_hex Join Quote args cache 0 args [ageBin] w = (Ok out, w') ->
  exists toks,
    out = ageBin :: toks
    /\ Forall (fun t => In t args \/ t = "-r" \/ More.clean_key t) toks.
Proof. intros E. apply rewriteFrom_tokens_from in E. exact E. Qed.

Lemma cacheDir_get_only (cache h : string) (w : World) :
  validGithubHandle h = true ->
  More.only (More.permitted sha1_hex Join cache) w
    (snd (cacheDir_get sha1_hex Join cache h w)).
Proof.
  intros Hv.
  assert (Hs : More.permitted sha1_hex Join cache (EvStat (Join cache (sha1_hex h))))
    by (exists h; auto).
  assert (Hr : More.permitted sha1_hex Join cache (EvReadFile (Join cache (sha1_hex h))))
    by (exists h; auto).
  pose proof (OnlyFacts.only_record _ w w _ (OnlyFacts.only_refl _ w) Hs) as H1.
  pose proof (OnlyFacts.only_record _ w _ _ H1 Hr) as H2.
  unfold cacheDir_get, os_Stat, ioutil_ReadFile.
  destruct (String.eqb cache EmptyString); [apply OnlyFacts.only_refl|].
  destruct (files w !! _); [|exact H1].
  destruct (stat_fault w _); [exact H1|].
  destruct (_ <? _); [exact H1|]. simpl.
  destruct (files w !! _); [|exact H2].
  destruct (read_fault w _); exact H2.
Qed.

Lemma cacheDir_put_only (cache h data : string) (w0 w : World) :
  validGithubHandle h = true ->
  More.only (More.permitted sha1_hex Join cache) w0 w ->
  More.only (More.permitted sha1_hex Join cache) w0
    (snd (cacheDir_put sha1_hex Join cache h data w)).
Proof.
  intros Hv H0.
  assert (Hm : More.permitted sha1_hex Join cache (EvMkdirAll cache)) by reflexivity.
  assert (Hw : More.permitted sha1_hex Join cache
                 (EvWriteFile (Join cache (sha1_hex h)) data))
    by (exists h; auto).
  pose proof (OnlyFacts.only_record _ w0 w _ H0 Hm) as H1.
  pose proof (OnlyFacts.only_record _ w0 _ _ H1 Hw) as H2.
  unfold cacheDir_put, os_MkdirAll, ioutil_WriteFile.
  destruct (String.eqb cache EmptyString); [exact H0|].
  destruct (mkdir_fault w cache); [exact H1|]. simpl.
  destruct (write_fault w _); simpl; [exact H2|].
  now apply OnlyFacts.only_with_files.
Qed.

Lemma fetchGithubKeys_only (h cache : string) (w : World) :
  More.only (More.permitted sha1_hex Join cache) w
    (snd (fetchGithubKeys sha1_hex Join Quote h cache w)).
Proof.
  destruct (validGithubHandle h) eqn:Hv.
  2:{ unfold fetchGithubKeys. rewrite Hv. apply OnlyFacts.only_refl. }
  pose proof (cacheDir_get_only cache h w Hv) as Hget.
  destruct (cacheDir_get sha1_hex Join cache h w) as [[data|e] w1] eqn:G; simpl in Hget.
  { unfold fetchGithubKeys. rewrite Hv, G. exact Hget. }
  rewrite (fetchGithubKeys_miss sha1_hex Join Quote h cache w w1 e Hv G). cbv zeta.
  assert (Hdo : More.only (More.permitted sha1_hex Join cache) w
                  (record (EvHTTPGet (More.keys_url h) "github.com/artyom/age-github") w1)).
  { apply OnlyFacts.only_record; [exact Hget|]. split; [exists h; auto | reflexivity]. }
  destruct (http w _) as [resp|e']; [|exact Hdo].
  destruct (negb (StatusCode resp =? 200)); [exact Hdo|].
  destruct (negb (Str.HasPrefix (ContentType resp) "text/plain")); [exact Hdo|].
  destruct (parseReaderToKeys (More.limited (Body resp)) (readahead w)) as [[keys|e'] n];
    [|exact Hdo].
  cbn [snd]. now apply cacheDir_put_only.
Qed.

Lemma rewriteFrom_only (args : list string) (cache : string) (rest : list string) :
  forall i ageArgs w,
    More.only (More.permitted sha1_hex Join cache) w
      (snd (rewriteFrom sha1_hex Join Quote args cache i rest ageArgs w)).
Proof.
  induction rest as [|v rest IH]; intros i ageArgs w; simpl; [apply OnlyFacts.only_refl|].
  assert (Hsub : forall h tokens,
             More.only (More.permitted sha1_hex Join cache) w
               (snd (substitute sha1_hex Join Quote cache h tokens ageArgs w))).
  { intros h tokens. unfold substitute.
    pose proof (fetchGithubKeys_only h cache w) as H.
    destruct (fetchGithubKeys _ _ _ h cache w) as [[[|k ks]|e] w1]; exact H. }
  assert (Hstep : More.only (More.permitted sha1_hex Join cache) w
                    (snd (rewriteArg sha1_hex Join Quote args cache i v ageArgs w))).
  { destruct (rewriteArg_cases sha1_hex Join Quote args cache i v ageArgs w)
      as [[_ ->]|[(_ & F & V & _ & _ & ->)|[_ ->]]];
      [apply Hsub | apply Hsub | apply OnlyFacts.only_refl]. }
  destruct (rewriteArg _ _ _ args cache i v ageArgs w) as [[acc|e] w1]; simpl in Hstep.
  - eapply OnlyFacts.only_trans; [exact Hstep | apply IH].
  - exact Hstep.
Qed.

(** X12. All that [run] does to the world is: look up [age], ask for the
    user's cache directory, stat, read and write cache files of valid
    handles in its cache directory, create that directory, request
    [https://github.com/<handle>.keys] for valid handles with its own user
    agent, and exec. *)
Theorem run_permitted (args : list string) (w : World) :
  More.only (More.permitted sha1_hex Join (cacheOf Join (user_cache_dir w))) w
    (snd (run sha1_hex Join Quote args w)).
Proof.
  set (P := More.permitted sha1_hex Join (cacheOf Join (user_cache_dir w))).
  assert (H1 : More.only P w (record (EvLookPath "age") w))
    by (apply OnlyFacts.only_record; [apply OnlyFacts.only_refl | reflexivity]).
  destruct args as [|a args]; [apply OnlyFacts.only_refl|].
  destruct (path_lookup w "age") as [ageBin|e] eqn:Hbin.
  - rewrite (run_unfold sha1_hex Join Quote (a :: args) w ageBin ltac:(discriminate) Hbin).
    assert (H2 : More.only P w (record EvUserCacheDir (record (EvLookPath "age") w)))
      by (apply OnlyFacts.only_record; [exact H1 | exact I]).
    pose proof (rewriteFrom_only (a :: args) (cacheOf Join (user_cache_dir w)) (a :: args)
                  0 [ageBin] (record EvUserCacheDir (record (EvLookPath "age") w))) as H3.
    destruct (rewriteFrom _ _ _ _ _ _ _ _ _) as [[out|e] w3]; cbn [snd] in H3.
    + pose proof (OnlyFacts.only_trans _ _ _ _ H2 H3) as H4.
      unfold syscall_Exec. destruct (exec_fault w3 ageBin); cbn [snd];
        (apply OnlyFacts.only_record; [exact H4 | exact I]).
    + exact (OnlyFacts.only_trans _ _ _ _ H2 H3).
  - unfold run, exec_LookPath. rewrite Hbin. exact H1.
Qed.

End RunMore.

Lemma resolution_error_aborts_witness :
  fst (run Sample.sha1_hex Sample.Join Sample.Quote ["-r"; "@1abc"] Sample.world)
  = Returned ("fetching keys for github user " +:+ Sample.Quote "1abc"
              +:+ ": " +:+ "not a valid github user name").
Proof.
  destruct (resolution_error_aborts Sample.sha1_hex Sample.Join Sample.Quote
              ["-r"; "@1abc"] ["-r"] [] "@1abc" "1abc" "/usr/bin/age" Sample.world
              (record EvUserCacheDir (record (EvLookPath "age") Sample.world))
              (record EvUserCacheDir (record (EvLookPath "age") Sample.world))
              ["/usr/bin/age"; "-r"] "not a valid github user name") as (H & _).
  - reflexivity.
  - reflexivity.
  - vm_compute. reflexivity.
  - left. split; [|reflexivity].
    split; [reflexivity|]. split; [simpl; lia|]. exists "-r". split; [reflexivity | now left].
  - vm_compute. reflexivity.
  - rewrite H. reflexivity.
Defined.

Lemma rewrite_length_witness :
  length ["/usr/bin/age"; "-r"; "ssh-ed25519 AAA"; "f"]
  = (1 + length ["--recipient=@alice"; "f"]
     + length (List.filter More.is_attached_placeholder ["--recipient=@alice"; "f"]))%nat.
Proof.
  apply (rewrite_length Sample.sha1_hex Sample.Join Sample.Quote
           ["--recipient=@alice"; "f"] Sample.cache "/usr/bin/age" Sample.world
           (snd (rewriteFrom Sample.sha1_hex Sample.Join Sample.Quote
                   ["--recipient=@alice"; "f"] Sample.cache 0 ["--recipient=@alice"; "f"]
                   ["/usr/bin/age"] Sample.world))).
  vm_compute. reflexivity.
Defined.

Lemma rewrite_tokens_witness :
  exists toks,
    ["/usr/bin/age"; "-r"; "ssh-ed25519 AAA"; "file.txt"] = "/usr/bin/age" :: toks
    /\ Forall (fun t => In t ["-r"; "@alice"; "file.txt"] \/ t = "-r" \/ More.clean_key t)
         toks.
Proof.
  apply (rewrite_tokens Sample.sha1_hex Sample.Join Sample.Quote
           ["-r"; "@alice"; "file.txt"] Sample.cache "/usr/bin/age" Sample.world
           (snd (rewriteFrom Sample.sha1_hex Sample.Join Sample.Quote
                   ["-r"; "@alice"; "file.txt"] Sample.cache 0 ["-r"; "@alice"; "file.txt"]
                   ["/usr/bin/age"] Sample.world))).
  vm_compute. reflexivity.
Defined.

(** ** More on the cache and on handles *)

Section CacheMore.

Variable sha1_hex : string -> string.
Variable Join : string -> string -> string.

(** X13. Writing the cache entry of one handle does not change what
    [get] answers for a handle with another file name. *)
Theorem cache_put_other (c h1 h2 data : string) (w : World) :
  Join c (sha1_hex h1) <> Join c (sha1_hex h2) ->
  fst (cacheDir_get sha1_hex Join c h2 (snd (cacheDir_put sha1_hex Join c h1 data w)))
  = fst (cacheDir_get sha1_hex Join c h2 w).
Proof.
  intros Hne. destruct (String.eqb_spec c EmptyString) as [->|Hc]; [reflexivity|].
  rewrite !(get_unfold sha1_hex Join c h2 _ Hc).
  destruct (cacheDir_put_keeps sha1_hex Join c h1 data w) as (Hfiles & _ & Env).
  rewrite (Hfiles (Join c (sha1_hex h2)) ltac:(congruence)).
  unfold More.env_of in Env. injection Env as -> -> -> _ _ _ _ _ _ _ _.
  reflexivity.
Qed.

End CacheMore.

Lemma cache_put_other_witness :
  fst (cacheDir_get Sample.sha1_hex Sample.Join Sample.cache "bob"
         (snd (cacheDir_put Sample.sha1_hex Sample.Join Sample.cache "alice"
                 Sample.alice_keys Sample.world)))
  = fst (cacheDir_get Sample.sha1_hex Sample.Join Sample.cache "bob" Sample.world).
Proof.
  apply (cache_put_other Sample.sha1_hex Sample.Join Sample.cache "alice" "bob").
  intros H. vm_compute in H. discriminate.
Defined.

(** X14. A valid handle has at least two bytes, all of them letters,
    digits, underscores or hyphens: a handle of one letter is not valid, and
    a valid handle has no byte that could change the path or the host of
    the URL it is put in. *)
Theorem validGithubHandle_shape (s : string) :
  validGithubHandle s = true ->
  2 <= Str.len s /\ Str.all Grammar.is_word s = true.
Proof.
  unfold validGithubHandle. rewrite RegexpFacts.full_match_Matches.
  intros H. apply RegexpFacts.Matches_userNameRe in H as (c & rest & -> & Hc & Hne & Hall).
  split.
  - destruct rest as [|d rest]; [now destruct Hne|]. unfold Str.len. simpl. lia.
  - unfold Str.all in *. simpl. rewrite Hall. unfold Grammar.is_word. now rewrite Hc.
Qed.

Lemma validGithubHandle_shape_witness :
  2 <= Str.len "artyom" /\ Str.all Grammar.is_word "artyom" = true.
Proof. apply validGithubHandle_shape. reflexivity. Defined.
